(** * A shallow embedding of the wordler solver (src/wordler.py, src/sim.py)

    Words, guesses and feedback strings are lists of ASCII characters.
    Python list reads [w[i]] below valid indices are modelled by [char_at]
    (and [nth] with a default that is never observed); in-place list writes
    [xs[i] = v] by stdpp's list insert [<[i:=v]> xs].  Python dicts, Counters
    and sets are stdpp [gmap]s and [gset]s. *)

From Stdlib Require Import Ascii String.
From stdpp Require Import base list gmap strings.

Open Scope list_scope.

Abbreviation word := (list ascii).

(** [w[i]] for an index inside the word. *)
Definition char_at (w : word) (i : nat) : ascii := nth i w " "%char.

(** Number of indices of [l] satisfying [f]. *)
Definition cnt (f : nat -> bool) (l : list nat) : nat := length (List.filter f l).

(* ------------------------------------------------------------------ *)
(** ** WordleSolver._get_pattern (wordler.py lines 77-92) *)

(** First loop: exact matches get ['g'] and their answer slot is used. *)
Definition pass1_step (guess answer : word)
    (st : list ascii * list bool) (i : nat) : list ascii * list bool :=
  let '(pattern, used_in_answer) := st in
  if decide (char_at guess i = char_at answer i)
  then (<[i:="g"%char]> pattern, <[i:=true]> used_in_answer)
  else (pattern, used_in_answer).

Definition pass1 (word_length : nat) (guess answer : word)
    : list ascii * list bool :=
  fold_left (pass1_step guess answer) (seq 0 word_length)
    (replicate word_length "-"%char, replicate word_length false).

(** Inner loop [for j in range(word_length)] with its [break]: the first
    answer slot that is not used and holds the guessed letter. *)
Definition first_free (word_length : nat) (used_in_answer : list bool)
    (c : ascii) (answer : word) : option nat :=
  List.find (fun j => negb (nth j used_in_answer true)
                      && bool_decide (c = char_at answer j))
            (seq 0 word_length).

Definition pass2_step (word_length : nat) (guess answer : word)
    (st : list ascii * list bool) (i : nat) : list ascii * list bool :=
  let '(pattern, used_in_answer) := st in
  if decide (char_at pattern i = "-"%char) then
    match first_free word_length used_in_answer (char_at guess i) answer with
    | Some j => (<[i:="y"%char]> pattern, <[j:=true]> used_in_answer)
    | None => (pattern, used_in_answer)
    end
  else (pattern, used_in_answer).

Definition get_pattern (word_length : nat) (guess answer : word) : list ascii :=
  fst (fold_left (pass2_step word_length guess answer) (seq 0 word_length)
         (pass1 word_length guess answer)).

(** The same function with Python's [IndexError] made explicit: the first
    loop reads [guess[i]] and [answer[i]] for every [i < word_length], so
    the call raises exactly when one of the words is shorter than that;
    afterwards every read is at an index already read. *)
Definition get_pattern_checked (word_length : nat) (guess answer : word)
    : option (list ascii) :=
  if (word_length <=? length guess) && (word_length <=? length answer)
  then Some (get_pattern word_length guess answer)
  else None.

(* ------------------------------------------------------------------ *)
(** ** check_guess (sim.py lines 5-32) *)

Definition sq_green : string := "🟩".
Definition sq_yellow : string := "🟨".
Definition sq_white : string := "⬜️".

(** [list.remove(x)]: drops the first element equal to [x].  Python raises
    when [x] is absent; [check_guess] only calls it after an [in] test. *)
Fixpoint list_remove {A} `{EqDecision A} (x : A) (l : list A) : list A :=
  match l with
  | [] => []
  | y :: l' => if decide (x = y) then l' else y :: list_remove x l'
  end.

(** [secret_letters] is a list of letters in which used letters become
    [None]. *)
Definition cg_pass1_step (guess : word)
    (st : list string * list (option ascii)) (i : nat)
    : list string * list (option ascii) :=
  let '(result, secret_letters) := st in
  if decide (Some (char_at guess i) = nth i secret_letters None)
  then (<[i:=sq_green]> result, <[i:=None]> secret_letters)
  else (result, secret_letters).

Definition cg_pass2_step (guess : word)
    (st : list string * list (option ascii)) (i : nat)
    : list string * list (option ascii) :=
  let '(result, secret_letters) := st in
  if decide (nth i result EmptyString = EmptyString) then
    if decide (Some (char_at guess i) ∈ secret_letters)
    then (<[i:=sq_yellow]> result,
          list_remove (Some (char_at guess i)) secret_letters)
    else (result, secret_letters)
  else (result, secret_letters).

Definition check_guess (guess secret_word : word) : list string :=
  let length := List.length secret_word in
  let st1 := fold_left (cg_pass1_step guess) (seq 0 length)
               (replicate length EmptyString, map Some secret_word) in
  let st2 := fold_left (cg_pass2_step guess) (seq 0 length) st1 in
  map (fun r => if decide (r = EmptyString) then sq_white else r) (fst st2).

(** The renaming of wordler's marks into sim's squares. *)
Definition to_square (m : ascii) : string :=
  if decide (m = "g"%char) then sq_green
  else if decide (m = "y"%char) then sq_yellow
  else sq_white.

(* ------------------------------------------------------------------ *)
(** ** The solver's game state (wordler.py lines 28-33) *)

Record knowledge := {
  green_pattern : list ascii;                  (* '-' = unknown *)
  yellow_misplaced : gmap ascii (gset nat);    (* defaultdict(set) *)
  letter_min_counts : gmap ascii nat;          (* Counter *)
  letter_max_counts : gmap ascii nat;          (* dict *)
  greys : gset ascii
}.

Definition init_knowledge (word_length : nat) : knowledge := {|
  green_pattern := replicate word_length "-"%char;
  yellow_misplaced := ∅;
  letter_min_counts := ∅;
  letter_max_counts := ∅;
  greys := ∅
|}.

(** [Counter(word)[c]]. *)
Definition occurrences (c : ascii) (w : word) : nat :=
  length (List.filter (fun d => bool_decide (d = c)) w).

(* ------------------------------------------------------------------ *)
(** ** WordleSolver._update_knowledge (wordler.py lines 117-135) *)

(** The first loop over [enumerate(guess)]. *)
Definition mark_step (guess results : word)
    (st : list ascii * gmap ascii (gset nat)) (i : nat)
    : list ascii * gmap ascii (gset nat) :=
  let '(gp, ym) := st in
  let char := char_at guess i in
  if decide (char_at results i = "g"%char) then (<[i:=char]> gp, ym)
  else if decide (char_at results i = "y"%char)
  then (gp, <[char := {[i]} ∪ default ∅ (ym !! char)]> ym)
  else (gp, ym).

(** [sum(1 for i, c in enumerate(guess) if c == char and results[i] == m)] *)
Definition mark_count (guess results : word) (char m : ascii) : nat :=
  cnt (fun i => bool_decide (char_at guess i = char)
                && bool_decide (char_at results i = m))
      (seq 0 (length guess)).

(** One iteration of [for char in guess_counts]. *)
Definition count_step (guess results : word)
    (st : gmap ascii nat * gmap ascii nat * gset ascii) (char : ascii)
    : gmap ascii nat * gmap ascii nat * gset ascii :=
  let '(mins, maxs, grs) := st in
  let green_count := mark_count guess results char "g"%char in
  let yellow_count := mark_count guess results char "y"%char in
  let grey_count := mark_count guess results char "-"%char in
  let min_count := green_count + yellow_count in
  let mins' := <[char := max (default 0 (mins !! char)) min_count]> mins in
  let maxs' := if decide (0 < grey_count) then <[char := min_count]> maxs
               else maxs in
  let grs' := if decide (green_count = 0 /\ yellow_count = 0)
              then {[char]} ∪ grs else grs in
  (mins', maxs', grs').

(** The keys of [Counter(guess)] are the distinct letters of the guess; the
    iterations for different letters touch different keys, so their order
    does not matter. *)
Definition update_knowledge (st : knowledge) (guess results : word)
    : knowledge :=
  let '(gp, ym) := fold_left (mark_step guess results) (seq 0 (length guess))
                     (green_pattern st, yellow_misplaced st) in
  let '(mins, maxs, grs) :=
    fold_left (count_step guess results) (remove_dups guess)
      (letter_min_counts st, letter_max_counts st, greys st) in
  {| green_pattern := gp; yellow_misplaced := ym;
     letter_min_counts := mins; letter_max_counts := maxs; greys := grs |}.

(* ------------------------------------------------------------------ *)
(** ** WordleSolver._filter_words (wordler.py lines 137-156) *)

(** [re.compile("".join(green_pattern).replace('-', '.')).match(word)]:
    the pattern is anchored at the start only; ['.'] matches any character
    but a newline and a lowercase letter matches itself.  A pattern
    character other than '-' is read here as a literal, which is what [re]
    does for letters; the statements about the filter assume green patterns
    made of lowercase letters and '-'. *)
Fixpoint green_regex_match (pat w : word) : bool :=
  match pat, w with
  | [], _ => true
  | _ :: _, [] => false
  | p :: pat', c :: w' =>
      (if decide (p = "-"%char) then bool_decide (c <> "010"%char)
       else bool_decide (p = c))
      && green_regex_match pat' w'
  end.

Definition min_counts_ok (mins : gmap ascii nat) (w : word) : bool :=
  forallb (fun '(char, count) => negb (occurrences char w <? count))
          (map_to_list mins).

Definition max_counts_ok (maxs : gmap ascii nat) (w : word) : bool :=
  forallb (fun '(char, count) => occurrences char w =? count)
          (map_to_list maxs).

Definition yellow_ok (ym : gmap ascii (gset nat)) (w : word) : bool :=
  forallb (fun '(char, positions) =>
             negb (existsb (fun pos => bool_decide (w !! pos = Some char))
                           (elements positions)))
          (map_to_list ym).

Definition word_ok (st : knowledge) (w : word) : bool :=
  green_regex_match (green_pattern st) w
  && negb (existsb (fun c => bool_decide (c ∈ greys st)) w)
  && min_counts_ok (letter_min_counts st) w
  && max_counts_ok (letter_max_counts st) w
  && yellow_ok (yellow_misplaced st) w.

(** [self.possible_words] is replaced by the filtered list. *)
Definition filter_words (st : knowledge) (possible_words : list word)
    : list word :=
  List.filter (fun w => word_ok st w) possible_words.

(* ------------------------------------------------------------------ *)
(** ** WordleSolver._is_valid_hard_mode_guess (wordler.py lines 158-170) *)

Definition is_valid_hard_mode_guess (st : knowledge) (guess : word) : bool :=
  forallb (fun '(i, char) =>
             negb (bool_decide (char <> "-"%char)
                   && bool_decide (char_at guess i <> char)))
          (zip (seq 0 (length (green_pattern st))) (green_pattern st))
  && forallb (fun char => bool_decide (char ∈ guess))
             (map fst (map_to_list (yellow_misplaced st))).

(* ------------------------------------------------------------------ *)
(** ** WordleSolver.find_best_guess_frequency (wordler.py lines 60-75) *)

(** [for letter in set(word): letter_frequency[letter] += 1] *)
Definition add_word_letters (freq : gmap ascii nat) (w : word) : gmap ascii nat :=
  fold_left (fun freq letter => <[letter := default 0 (freq !! letter) + 1]> freq)
            (remove_dups w) freq.

Definition letter_frequency (possible_words : list word) : gmap ascii nat :=
  fold_left add_word_letters possible_words ∅.

Definition score (freq : gmap ascii nat) (w : word) : nat :=
  sum_list (map (fun letter => default 0 (freq !! letter)) (remove_dups w)).

Definition frequency_step (freq : gmap ascii nat) (st : word * Z) (w : word)
    : word * Z :=
  let '(best_word, max_score) := st in
  let s := Z.of_nat (score freq w) in
  if decide (max_score < s)%Z then (w, s) else (best_word, max_score).

Definition find_best_guess_frequency (possible_words : list word)
    : option word :=
  match possible_words with
  | [] => None
  | [w] => Some w
  | _ =>
      let freq := letter_frequency possible_words in
      Some (fst (fold_left (frequency_step freq) possible_words ([], (-1)%Z)))
  end.

(* ------------------------------------------------------------------ *)
(** ** WordleSolver.find_best_guess_minimax (wordler.py lines 94-115) *)

(** [pattern_counts] (a [defaultdict(int)] keyed by patterns) and
    [max(pattern_counts.values())]. *)
Definition count_pattern (word_length : nat) (guess : word)
    (pc : gmap (list ascii) nat) (answer : word) : gmap (list ascii) nat :=
  let pattern := get_pattern word_length guess answer in
  <[pattern := default 0 (pc !! pattern) + 1]> pc.

Definition pattern_counts (word_length : nat) (possible_words : list word)
    (guess : word) : gmap (list ascii) nat :=
  fold_left (count_pattern word_length guess) possible_words ∅.

Definition max_remaining (word_length : nat) (possible_words : list word)
    (guess : word) : nat :=
  map_fold (fun _ v acc => max v acc) 0
           (pattern_counts word_length possible_words guess).

(** [min_max_remaining] starts at [float('inf')], written [None]. *)
Definition lt_inf (m : nat) (bound : option nat) : bool :=
  match bound with None => true | Some b => m <? b end.

Definition minimax_step (word_length : nat) (possible_words : list word)
    (st : word * option nat) (guess : word) : word * option nat :=
  let '(best_guess, min_max_remaining) := st in
  if negb (length guess =? word_length) then st else
  let m := max_remaining word_length possible_words guess in
  if lt_inf m min_max_remaining then (guess, Some m)
  else if decide (min_max_remaining = Some m) then
    if bool_decide (guess ∈ possible_words)
       && negb (bool_decide (best_guess ∈ possible_words))
    then (guess, min_max_remaining) else st
  else st.

(** [all_words] is the solver's word set, listed in its iteration order. *)
Definition find_best_guess_minimax (word_length : nat)
    (all_words possible_words : list word) : option word :=
  match possible_words with
  | [] => None
  | [w] => Some w
  | _ =>
      let guess_candidates :=
        if 2 <? length possible_words then all_words else possible_words in
      Some (fst (fold_left (minimax_step word_length possible_words)
                           guess_candidates ([], None)))
  end.

(* ------------------------------------------------------------------ *)
(** ** A session: rounds of update then filter (run, lines 249-250) *)

Definition round (st : knowledge * list word) (gr : word * word)
    : knowledge * list word :=
  let st' := update_knowledge (fst st) (fst gr) (snd gr) in
  (st', filter_words st' (snd st)).

Definition start (word_length : nat) (all_words : list word)
    : knowledge * list word :=
  (init_knowledge word_length,
   List.filter (fun w => length w =? word_length) all_words).

Definition session (word_length : nat) (all_words : list word)
    (rounds : list (word * word)) : knowledge * list word :=
  fold_left round rounds (start word_length all_words).

(** The knowledge after a list of rounds, from the initial state. *)
Definition knowledge_after (word_length : nat) (rounds : list (word * word))
    : knowledge :=
  fold_left (fun st gr => update_knowledge st (fst gr) (snd gr)) rounds
            (init_knowledge word_length).

(* ------------------------------------------------------------------ *)
(** ** Auxiliary notions used in the statements *)

(** Rounds whose feedback is the true pattern of each guess against one
    fixed answer. *)
Definition consistent_rounds (word_length : nat) (answer : word)
    (guesses : list word) : list (word * word) :=
  map (fun g => (g, get_pattern word_length g answer)) guesses.

Definition is_exact (guess answer : word) (i : nat) : bool :=
  bool_decide (char_at guess i = char_at answer i).

(** Answer slots holding [c] that [_get_pattern] has marked used. *)
Definition used_count (word_length : nat) (answer : word) (used : list bool)
    (c : ascii) : nat :=
  cnt (fun j => bool_decide (char_at answer j = c) && nth j used true)
      (seq 0 word_length).

Definition lower (c : ascii) : Prop :=
  (97 <= nat_of_ascii c <= 122)%nat.

Definition lower_word (w : word) : Prop := Forall lower w.

(** The letters still present in [secret_letters], in order. *)
Fixpoint remaining_letters (l : list (option ascii)) : list ascii :=
  match l with
  | [] => []
  | None :: l' => remaining_letters l'
  | Some c :: l' => c :: remaining_letters l'
  end.

(** The answer letters at slots [_get_pattern] has not used, in order. *)
Definition free_letters (word_length : nat) (answer : word) (used : list bool)
    : list ascii :=
  map (char_at answer)
      (List.filter (fun j => negb (nth j used true)) (seq 0 word_length)).

(** A wordler mark as the entry of sim's [result] list before its last loop. *)
Definition sim_entry (m : ascii) : string :=
  if decide (m = "g"%char) then sq_green
  else if decide (m = "y"%char) then sq_yellow
  else EmptyString.

(** The spec's letter score: the number of candidates containing [letter],
    summed over the distinct letters of a word. *)
Definition candidates_containing (possible_words : list word) (letter : ascii)
    : nat :=
  length (List.filter (fun w => bool_decide (letter ∈ w)) possible_words).

Definition spec_score (possible_words : list word) (w : word) : nat :=
  sum_list (map (candidates_containing possible_words) (remove_dups w)).

(** The spec's worst case of a guess: the size of its largest feedback
    bucket when each candidate in turn is the answer. *)
Definition bucket_size (word_length : nat) (possible_words : list word)
    (guess p : word) : nat :=
  length (List.filter (fun a => bool_decide (get_pattern word_length guess a = p))
                      possible_words).

Definition worst_case_bucket (word_length : nat) (possible_words : list word)
    (guess : word) : nat :=
  list_max (map (fun a => bucket_size word_length possible_words guess
                            (get_pattern word_length guess a))
                possible_words).

(* ------------------------------------------------------------------ *)
(** ** WordleSolver.run: one turn (wordler.py lines 194-251) *)

(** [self.algorithm], "frequency" or "minimax". *)
Inductive algorithm := Frequency | Minimax.

(** Line 194: the suggestion of the chosen algorithm. *)
Definition suggest (alg : algorithm) (word_length : nat)
    (all_words possible_words : list word) : option word :=
  match alg with
  | Minimax => find_best_guess_minimax word_length all_words possible_words
  | Frequency => find_best_guess_frequency possible_words
  end.

(** Lines 220-225: a typed guess other than '/new' leaves the input loop
    when it has the session's length and, in hard mode, passes the check. *)
Definition guess_accepted (hard_mode : bool) (word_length : nat)
    (st : knowledge) (last_guess : word) : bool :=
  (length last_guess =? word_length)
  && (negb hard_mode || is_valid_hard_mode_guess st last_guess).

(** [set.remove(x)] on the word set, listed without duplicates in its
    iteration order; [None] is the [KeyError] raised when [x] is absent. *)
Definition set_remove (x : word) (s : list word) : option (list word) :=
  if decide (x ∈ s) then Some (list_remove x s) else None.

(** Lines 212-219: '/new' drops the suggestion from [all_words] and from
    [possible_words] (the rewrite of the word-list file by
    [_remove_word_from_database] is not part of the model). *)
Definition discard_suggestion (suggested_guess : word)
    (all_words possible_words : list word) : option (list word * list word) :=
  match suggested_guess with
  | [] => Some (all_words, possible_words)
  | _ :: _ =>
      match set_remove suggested_guess all_words with
      | None => None
      | Some all_words' =>
          Some (all_words',
                if decide (suggested_guess ∈ possible_words)
                then list_remove suggested_guess possible_words
                else possible_words)
      end
  end.

(** Line 231: the accepted shape of the (lowercased) results string. *)
Definition results_format_ok (word_length : nat) (results_input : word) : bool :=
  (length results_input =? word_length)
  && forallb (fun c => bool_decide (c ∈ list_ascii_of_string "gy-")) results_input.

(** What the rest of the turn does with the results string. *)
Inductive turn_outcome :=
  | Rejected                                          (* lines 231-233 *)
  | Solved                                            (* lines 245-247 *)
  | Updated (st : knowledge) (possible_words : list word).  (* lines 249-251 *)

Definition feedback_turn (word_length : nat) (st : knowledge)
    (possible_words : list word) (last_guess results_input : word)
    : turn_outcome :=
  if negb (results_format_ok word_length results_input) then Rejected
  else if bool_decide (results_input = replicate word_length "g"%char) then Solved
  else
    let st' := update_knowledge st last_guess results_input in
    Updated st' (filter_words st' possible_words).

(* ------------------------------------------------------------------ *)
(** ** sim.py: play_wordle (lines 34-106)

    The game is modelled after its setup: [all_words] is the loaded set, the
    inputs are the lines typed, already lowercased (line 77), and the secret
    word is the one [random.choice] drew (line 61). *)

(** Line 56: [valid_words], the words of the chosen length. *)
Definition valid_words (word_length : nat) (all_words : list word) : list word :=
  List.filter (fun w => length w =? word_length) all_words.

(** Lines 76-83: the input loop reads lines until one is a valid word; an
    input exhausted before that is [None] (Python's [EOFError]). *)
Fixpoint read_guess (word_length : nat) (valid : list word) (inputs : list word)
    : option (word * list word) :=
  match inputs with
  | [] => None
  | guess :: rest =>
      if negb (length guess =? word_length) then read_guess word_length valid rest
      else if negb (bool_decide (guess ∈ valid)) then read_guess word_length valid rest
      else Some (guess, rest)
  end.

Inductive game_result :=
  | Won (guess_history : list (word * list string))
  | Lost (guess_history : list (word * list string))
  | NoInput (guess_history : list (word * list string)).

Definition game_history (r : game_result) : list (word * list string) :=
  match r with Won h | Lost h | NoInput h => h end.

(** Lines 67-106: the game loop (check at lines 86-87, win at line 93), [turns_left] turns still to play. *)
Fixpoint game_loop (turns_left word_length : nat) (valid : list word)
    (secret_word : word) (inputs : list word)
    (guess_history : list (word * list string)) : game_result :=
  match turns_left with
  | 0 => Lost guess_history
  | S n =>
      match read_guess word_length valid inputs with
      | None => NoInput guess_history
      | Some (guess, rest) =>
          let guess_history' := guess_history ++ [(guess, check_guess guess secret_word)] in
          if bool_decide (guess = secret_word) then Won guess_history'
          else game_loop n word_length valid secret_word rest guess_history'
      end
  end.

Definition MAX_TRIES : nat := 6.

(** A game once [secret_word] has been drawn from [valid_words] (line 61);
    [MAX_TRIES] is set at line 40. *)
Definition play_wordle (word_length : nat) (all_words : list word)
    (secret_word : word) (inputs : list word) : game_result :=
  game_loop MAX_TRIES word_length (valid_words word_length all_words) secret_word inputs [].

(* ------------------------------------------------------------------ *)
(** ** Auxiliary notions about the knowledge *)

(** Every yellow letter has a positive minimum count. *)
Definition yellow_counted (st : knowledge) : Prop :=
  forall c ps, yellow_misplaced st !! c = Some ps ->
  exists n, letter_min_counts st !! c = Some n /\ 0 < n.

(** No recorded yellow position holds its letter in [answer]. *)
Definition yellow_sound (answer : word) (st : knowledge) : Prop :=
  forall c ps pos, yellow_misplaced st !! c = Some ps -> pos ∈ ps ->
  answer !! pos <> Some c.

Example get_pattern_crane_slate :
  get_pattern 5 (list_ascii_of_string "crane") (list_ascii_of_string "slate")
  = list_ascii_of_string "--g-g".
Proof. reflexivity. Qed.

Example get_pattern_speed_erase :
  get_pattern 5 (list_ascii_of_string "speed") (list_ascii_of_string "erase")
  = list_ascii_of_string "y-yy-".
Proof. vm_compute. reflexivity. Qed.

(* ------------------------------------------------------------------ *)
(** * Lemmas *)

Lemma nth_insert {A} (l : list A) i j x d :
  nth j (<[i:=x]> l) d = if decide (j = i /\ i < length l) then x else nth j l d.
Proof.
  rewrite !nth_lookup. case_decide as H.
  - destruct H as [-> H]. by rewrite list_lookup_insert_eq.
  - destruct (decide (j = i)) as [->|Hne].
    + rewrite list_insert_ge; [done|]. lia.
    + by rewrite list_lookup_insert_ne.
Qed.

Lemma char_at_insert (w : word) i j x :
  char_at (<[i:=x]> w) j = if decide (j = i /\ i < length w) then x else char_at w j.
Proof. apply nth_insert. Qed.

Lemma cnt_ext f f' l : (forall x, x ∈ l -> f x = f' x) -> cnt f l = cnt f' l.
Proof.
  unfold cnt. induction l as [|x l IH]; intros H; [done|]. simpl.
  rewrite (H x) by constructor.
  destruct (f' x); simpl; rewrite IH; auto; intros y Hy; apply H; by constructor.
Qed.

Lemma cnt_le f f' l :
  (forall x, x ∈ l -> f x = true -> f' x = true) -> cnt f l <= cnt f' l.
Proof.
  unfold cnt. induction l as [|x l IH]; intros H; simpl; [lia|].
  assert (IH' : length (List.filter f l) <= length (List.filter f' l)).
  { apply IH. intros y Hy. apply H. by constructor. }
  destruct (f x) eqn:E.
  - rewrite (H x) by (constructor || done). simpl. lia.
  - destruct (f' x); simpl; lia.
Qed.

Lemma cnt_pos f l : 0 < cnt f l <-> exists x, x ∈ l /\ f x = true.
Proof.
  unfold cnt. induction l as [|x l IH]; simpl.
  - split; [lia|]. intros (y & Hy & _). inversion Hy.
  - destruct (f x) eqn:E; simpl.
    + split; [intros _; exists x; split; [constructor|done]|lia].
    + rewrite IH. split; intros (y & Hy & Hf); exists y; split; auto.
      * by constructor.
      * inversion Hy; subst; congruence.
Qed.

Lemma cnt_bump f f' l k :
  NoDup l -> k ∈ l -> (forall x, x <> k -> f' x = f x) ->
  f k = false -> f' k = true -> cnt f' l = S (cnt f l).
Proof.
  unfold cnt. intros Hnd. induction Hnd as [|x l Hx Hnd IH]; intros Hk Hf Hfk Hf'k.
  - inversion Hk.
  - simpl. destruct (decide (x = k)) as [->|Hne].
    + rewrite Hfk, Hf'k. simpl. f_equal.
      apply (cnt_ext f' f). intros y Hy. apply Hf. intros ->. done.
    + rewrite Hf by done. assert (k ∈ l) by (inversion Hk; subst; done).
      destruct (f x); simpl; rewrite IH; auto.
Qed.

(** [length (filter P w)] counted over the indices of [w]. *)
Lemma filter_length_cnt (P : ascii -> bool) (w : word) s f :
  (forall j, j < length w -> f (s + j) = P (char_at w j)) ->
  cnt f (seq s (length w)) = length (List.filter P w).
Proof.
  revert s. induction w as [|x w IH]; intros s H; [done|].
  simpl. unfold cnt in *. simpl.
  assert (Hs : f s = P x) by (specialize (H 0); rewrite Nat.add_0_r in H; apply H; simpl; lia).
  rewrite Hs. destruct (P x); simpl; rewrite (IH (S s)); try done.
  all: 
intros j Hj; replace (S s + j) with (s + S j) by lia; apply (H (S j)); simpl; lia.
Qed.

Lemma occurrences_cnt (c : ascii) (w : word) :
  occurrences c w
  = cnt (fun j => bool_decide (char_at w j = c)) (seq 0 (length w)).
Proof. symmetry. apply filter_length_cnt. done. Qed.

Lemma mark_count_insert (g p : word) k x c m :
  k < length g -> k < length p -> char_at p k <> m ->
  mark_count g (<[k:=x]> p) c m
  = if bool_decide (char_at g k = c /\ x = m) then S (mark_count g p c m)
    else mark_count g p c m.
Proof.
  intros Hkg Hkp Hpk. unfold mark_count. case_bool_decide as Hc.
  - destruct Hc as [Hgk ->]. apply cnt_bump with k.
    + apply NoDup_seq.
    + apply elem_of_seq. lia.
    + intros i Hi. rewrite char_at_insert, decide_False by lia. done.
    + rewrite (bool_decide_false (char_at p k = m)) by done. by rewrite andb_false_r.
    + rewrite char_at_insert, decide_True by lia.
      by rewrite !bool_decide_true by done.
  - apply cnt_ext. intros i Hi. rewrite char_at_insert.
    case_decide as Hik; [|done]. destruct Hik as [-> _].
    rewrite (bool_decide_false (char_at p k = m)) by done.
    rewrite andb_false_r.
    destruct (decide (char_at g k = c)) as [Hgc|Hgc].
    + rewrite bool_decide_true by done. rewrite bool_decide_false; [done|].
      intros ->. apply Hc. done.
    + by rewrite bool_decide_false by done.
Qed.

Lemma used_count_insert L (answer : word) (u : list bool) j c :
  j < L -> j < length u -> nth j u true = false ->
  used_count L answer (<[j:=true]> u) c
  = if bool_decide (char_at answer j = c) then S (used_count L answer u c)
    else used_count L answer u c.
Proof.
  intros HjL Hju Hn. unfold used_count. case_bool_decide as Hc.
  - apply cnt_bump with j.
    + apply NoDup_seq.
    + apply elem_of_seq. lia.
    + intros i Hi. rewrite nth_insert, decide_False by lia. done.
    + by rewrite Hn, andb_false_r.
    + rewrite nth_insert, decide_True by lia. by rewrite bool_decide_true.
  - apply cnt_ext. intros i Hi. rewrite nth_insert.
    case_decide as Hij; [|done]. destruct Hij as [-> _].
    by rewrite bool_decide_false by done.
Qed.

Lemma occurrences_pos c (w : word) : 0 < occurrences c w <-> c ∈ w.
Proof.
  unfold occurrences. induction w as [|x w IH]; simpl.
  - split; [lia|]. intros H. inversion H.
  - case_bool_decide as Hx; simpl.
    + subst. split; [intros _; constructor|lia].
    + rewrite IH. split; [intros H; by constructor|].
      intros H. inversion H; subst; [done|done].
Qed.

Lemma occurrences_marks (p : list ascii) :
  Forall (fun x => x = "g"%char \/ x = "y"%char \/ x = "-"%char) p ->
  occurrences "g"%char p + occurrences "y"%char p + occurrences "-"%char p
  = length p.
Proof.
  unfold occurrences. induction 1 as [|x p Hx Hp IH]; [done|]. simpl.
  destruct Hx as [-> | [-> | ->]]; simpl; lia.
Qed.

Lemma char_at_in (w : word) i : i < length w -> char_at w i ∈ w.
Proof.
  intros Hi. unfold char_at. destruct (nth_lookup_or_length w i " "%char) as [H|H].
  - apply list_elem_of_lookup. eauto.
  - lia.
Qed.

Lemma in_char_at (w : word) c : c ∈ w -> exists i, i < length w /\ char_at w i = c.
Proof.
  intros H. apply list_elem_of_lookup in H as [i Hi].
  exists i. split; [by apply lookup_lt_Some in Hi|]. unfold char_at.
  by apply nth_lookup_Some.
Qed.

Section Pattern.
Variables (L : nat) (guess answer : word).
Hypothesis Hg : length guess = L.
Hypothesis Ha : length answer = L.

Lemma pass1_inv k p u :
  k <= L ->
  fold_left (pass1_step guess answer) (seq 0 k)
    (replicate L "-"%char, replicate L false) = (p, u) ->
  length p = L /\ length u = L /\
  forall i, i < L ->
    char_at p i = (if (i <? k) && is_exact guess answer i then "g"%char else "-"%char)
    /\ nth i u true = (i <? k) && is_exact guess answer i.
Proof.
  revert p u. induction k as [|k IH]; intros p u Hk Hf.
  - simpl in Hf. injection Hf as <- <-. rewrite !length_replicate.
    split; [done|split; [done|]]. intros i Hi.
    unfold char_at. rewrite !nth_lookup, !lookup_replicate_2 by done. done.
  - rewrite seq_S, fold_left_app in Hf. simpl in Hf.
    destruct (fold_left (pass1_step guess answer) (seq 0 k)
               (replicate L "-"%char, replicate L false)) as [p0 u0] eqn:E.
    destruct (IH p0 u0 ltac:(lia) eq_refl) as (Hp0 & Hu0 & Hi0).
    unfold pass1_step in Hf. unfold is_exact in *.
    case_decide as Hex.
    + injection Hf as <- <-. rewrite !length_insert.
      split; [done|split; [done|]]. intros i Hi.
      rewrite char_at_insert, nth_insert, Hp0, Hu0.
      destruct (Hi0 i Hi) as [H1 H2].
      destruct (decide (i = k)) as [->|Hne].
      * rewrite !decide_True by lia. rewrite bool_decide_true by done.
        replace (k <? S k) with true by (symmetry; apply Nat.ltb_lt; lia).
        done.
      * rewrite !decide_False by lia.
        assert (Hlt : (i <? S k) = (i <? k)).
        { apply eq_bool_prop_intro. rewrite !Is_true_true, !Nat.ltb_lt. split; lia. }
        rewrite Hlt. done.
    + injection Hf as <- <-. split; [done|split; [done|]]. intros i Hi.
      destruct (Hi0 i Hi) as [H1 H2].
      destruct (decide (i = k)) as [->|Hne].
      * rewrite bool_decide_false by done. rewrite Nat.ltb_irrefl in *.
        rewrite andb_false_r in *. done.
      * assert (Hlt : (i <? S k) = (i <? k)).
        { apply eq_bool_prop_intro. rewrite !Is_true_true, !Nat.ltb_lt. split; lia. }
        rewrite Hlt. done.
Qed.

Lemma cnt_zero f l : (forall x, x ∈ l -> f x = false) -> cnt f l = 0.
Proof.
  intros H. destruct (cnt f l) eqn:E; [done|].
  assert (Hp : 0 < cnt f l) by lia. apply cnt_pos in Hp as (x & Hx & Hf).
  rewrite H in Hf by done. discriminate.
Qed.

Definition pass2_inv (k : nat) (p : list ascii) (u : list bool) : Prop :=
  length p = L /\ length u = L /\
  (forall i, i < L ->
     (char_at p i = "g"%char <-> is_exact guess answer i = true) /\
     (char_at p i = "g"%char \/ char_at p i = "y"%char \/ char_at p i = "-"%char)) /\
  (forall i, k <= i < L ->
     char_at p i = if is_exact guess answer i then "g"%char else "-"%char) /\
  (forall c, mark_count guess p c "g"%char + mark_count guess p c "y"%char
             = used_count L answer u c) /\
  (forall i, i < k -> char_at p i = "-"%char ->
     forall j, j < L -> char_at answer j = char_at guess i -> nth j u true = true).

Lemma pass1_result p u :
  pass1 L guess answer = (p, u) ->
  length p = L /\ length u = L /\
  forall i, i < L ->
    char_at p i = (if is_exact guess answer i then "g"%char else "-"%char)
    /\ nth i u true = is_exact guess answer i.
Proof.
  intros Hp. destruct (pass1_inv L p u (le_n L) Hp) as (H1 & H2 & H3).
  split; [done|split; [done|]]. intros i Hi.
  specialize (H3 i Hi).
  replace (i <? L) with true in H3 by (symmetry; apply Nat.ltb_lt; lia).
  exact H3.
Qed.

Lemma pass2_inv_init p u : pass1 L guess answer = (p, u) -> pass2_inv 0 p u.
Proof.
  intros Hp. destruct (pass1_result p u Hp) as (Hlp & Hlu & Hi).
  split; [done|split; [done|split; [|split; [|split]]]].
  - intros i Hi'. destruct (Hi i Hi') as [-> _].
    destruct (is_exact guess answer i); split; try tauto; split; congruence.
  - intros i Hi'. apply Hi. lia.
  - intros c.
    assert (Hy : mark_count guess p c "y"%char = 0).
    { unfold mark_count. apply cnt_zero. intros i Hin. rewrite Hg in Hin.
      apply elem_of_seq in Hin. destruct (Hi i ltac:(lia)) as [H1 _].
      rewrite H1. destruct (is_exact guess answer i); by rewrite andb_false_r. }
    rewrite Hy, Nat.add_0_r. unfold mark_count, used_count. rewrite Hg.
    apply cnt_ext. intros i Hin.
    apply elem_of_seq in Hin. destruct (Hi i ltac:(lia)) as [H1 H2].
    rewrite H1, H2. destruct (is_exact guess answer i) eqn:Ex.
    + unfold is_exact in Ex. apply bool_decide_eq_true in Ex. rewrite Ex.
      rewrite (bool_decide_true ("g"%char = "g"%char)) by done. done.
    + rewrite (bool_decide_false ("-"%char = "g"%char)) by done.
      by rewrite !andb_false_r.
  - intros i Hi'. lia.
Qed.

Lemma pass2_inv_step k p u :
  k < L -> pass2_inv k p u ->
  pass2_inv (S k) (fst (pass2_step L guess answer (p, u) k))
                  (snd (pass2_step L guess answer (p, u) k)).
Proof.
  intros Hk (Hlp & Hlu & Hdom & Hrest & Hcnt & Hblk).
  unfold pass2_step. case_decide as Hdash.
  - assert (Hex : is_exact guess answer k = false).
    { destruct (is_exact guess answer k) eqn:E; [|done].
      apply (proj1 (Hdom k Hk)) in E. congruence. }
    destruct (first_free L u (char_at guess k) answer) as [j|] eqn:Hff.
    + unfold first_free in Hff. apply find_some in Hff as [Hj Hfj].
      apply in_seq in Hj. apply andb_true_iff in Hfj as [Hu Hgj].
      apply negb_true_iff in Hu. apply bool_decide_eq_true in Hgj.
      simpl. split; [by rewrite length_insert|].
      split; [by rewrite length_insert|].
      split; [|split; [|split]].
      * intros i Hi. rewrite char_at_insert.
        case_decide as Hik.
        -- destruct Hik as [-> _]. rewrite Hex.
           split; [split; discriminate|]. auto.
        -- apply Hdom, Hi.
      * intros i Hi. rewrite char_at_insert, decide_False by lia. apply Hrest. lia.
      * intros c. rewrite !mark_count_insert by (lia || congruence).
        rewrite used_count_insert by (lia || done).
        rewrite (bool_decide_false (char_at guess k = c /\ "y"%char = "g"%char))
          by (intros [_ ?]; discriminate).
        rewrite <- Hcnt. rewrite <- Hgj.
        destruct (decide (char_at guess k = c)) as [Hc|Hc].
        -- rewrite !bool_decide_true by done. lia.
        -- rewrite !bool_decide_false by tauto. lia.
      * intros i Hi. rewrite char_at_insert.
        case_decide as Hik; [intros ?; discriminate|].
        intros Hpi j' Hj' Haj'. rewrite nth_insert.
        case_decide; [done|]. apply (Hblk i); [|done|done|done].
        destruct (decide (i = k)); [subst; lia|lia].
    + unfold first_free in Hff. pose proof (find_none _ _ Hff) as Hnone.
      simpl. split; [done|split; [done|split; [done|split; [|split; [done|]]]]].
      * intros i Hi. apply Hrest. lia.
      * intros i Hi Hpi j Hj Haj.
        destruct (decide (i = k)) as [->|Hne].
        -- specialize (Hnone j (proj2 (in_seq _ _ _) (conj (Nat.le_0_l j) Hj))).
           cbv beta in Hnone. rewrite bool_decide_true in Hnone by done.
           rewrite andb_true_r in Hnone. by apply negb_false_iff in Hnone.
        -- apply (Hblk i); [lia|done|done|done].
  - simpl. split; [done|split; [done|split; [done|split; [|split; [done|]]]]].
    + intros i Hi. apply Hrest. lia.
    + intros i Hi Hpi j Hj Haj.
      destruct (decide (i = k)) as [->|Hne]; [done|].
      apply (Hblk i); [lia|done|done|done].
Qed.

Lemma pass2_inv_fold k :
  k <= L ->
  forall p u, fold_left (pass2_step L guess answer) (seq 0 k)
                (pass1 L guess answer) = (p, u) -> pass2_inv k p u.
Proof.
  induction k as [|k IH]; intros Hk p u Hf.
  - simpl in Hf. by apply pass2_inv_init.
  - rewrite seq_S, fold_left_app in Hf. simpl in Hf.
    destruct (fold_left (pass2_step L guess answer) (seq 0 k)
                (pass1 L guess answer)) as [p0 u0] eqn:E.
    pose proof (pass2_inv_step k p0 u0 ltac:(lia) (IH ltac:(lia) p0 u0 eq_refl)) as H.
    rewrite Hf in H. exact H.
Qed.

Lemma get_pattern_inv :
  exists u, pass2_inv L (get_pattern L guess answer) u.
Proof.
  unfold get_pattern.
  destruct (fold_left (pass2_step L guess answer) (seq 0 L)
              (pass1 L guess answer)) as [p u] eqn:E.
  exists u. simpl. by apply (pass2_inv_fold L (le_n L)).
Qed.

Lemma get_pattern_length : length (get_pattern L guess answer) = L.
Proof. destruct get_pattern_inv as (u & H & _). exact H. Qed.

Lemma get_pattern_exact i :
  i < L -> char_at (get_pattern L guess answer) i = "g"%char
           <-> is_exact guess answer i = true.
Proof. intros Hi. destruct get_pattern_inv as (u & _ & _ & H & _). by apply H. Qed.

Lemma get_pattern_values i :
  i < L -> char_at (get_pattern L guess answer) i = "g"%char
           \/ char_at (get_pattern L guess answer) i = "y"%char
           \/ char_at (get_pattern L guess answer) i = "-"%char.
Proof. intros Hi. destruct get_pattern_inv as (u & _ & _ & H & _). by apply H. Qed.

Lemma get_pattern_Forall :
  Forall (fun x => x = "g"%char \/ x = "y"%char \/ x = "-"%char)
         (get_pattern L guess answer).
Proof.
  apply Forall_lookup. intros i x Hi.
  pose proof (lookup_lt_Some _ _ _ Hi) as Hlt. rewrite get_pattern_length in Hlt.
  pose proof (get_pattern_values i Hlt) as Hv. unfold char_at in Hv.
  by rewrite (nth_lookup_Some _ _ _ _ Hi) in Hv.
Qed.

(** Each letter gets at most as many 'g'/'y' marks as the answer has
    copies of it. *)
Lemma marks_le_occurrences c :
  mark_count guess (get_pattern L guess answer) c "g"%char
  + mark_count guess (get_pattern L guess answer) c "y"%char
  <= occurrences c answer.
Proof.
  destruct get_pattern_inv as (u & _ & _ & _ & _ & Hcnt & _).
  rewrite Hcnt, occurrences_cnt, Ha. unfold used_count. apply cnt_le.
  intros j _ H. apply andb_true_iff in H. tauto.
Qed.

(** A '-' on a copy of [c] means every copy of [c] in the answer is
    matched by a 'g' or 'y' mark of [c]. *)
Lemma marks_eq_occurrences c :
  0 < mark_count guess (get_pattern L guess answer) c "-"%char ->
  mark_count guess (get_pattern L guess answer) c "g"%char
  + mark_count guess (get_pattern L guess answer) c "y"%char
  = occurrences c answer.
Proof.
  intros Hgrey. destruct get_pattern_inv as (u & _ & _ & _ & _ & Hcnt & Hblk).
  unfold mark_count in Hgrey. apply cnt_pos in Hgrey as (i & Hi & Hf).
  rewrite Hg in Hi. apply elem_of_seq in Hi.
  apply andb_true_iff in Hf as [Hgi Hpi].
  apply bool_decide_eq_true in Hgi, Hpi.
  rewrite Hcnt, occurrences_cnt, Ha. unfold used_count. apply cnt_ext.
  intros j Hj. apply elem_of_seq in Hj.
  destruct (decide (char_at answer j = c)) as [Hc|Hc].
  - rewrite !bool_decide_true by done. simpl.
    apply (Hblk i); [lia|done|lia|congruence].
  - by rewrite !bool_decide_false by done.
Qed.

(** A letter of the guess gets some 'g' or 'y' mark iff the answer
    contains it. *)
Lemma marks_pos c :
  c ∈ guess ->
  (0 < mark_count guess (get_pattern L guess answer) c "g"%char
       + mark_count guess (get_pattern L guess answer) c "y"%char
   <-> c ∈ answer).
Proof.
  intros Hc. split.
  - intros H. apply occurrences_pos. pose proof (marks_le_occurrences c). lia.
  - intros Hca. apply in_char_at in Hc as (i & Hi & Hgi). rewrite Hg in Hi.
    destruct (get_pattern_values i Hi) as [Hm|[Hm|Hm]].
    + assert (0 < mark_count guess (get_pattern L guess answer) c "g"%char); [|lia].
      apply cnt_pos. exists i. split; [apply elem_of_seq; lia|].
      by rewrite !bool_decide_true.
    + assert (0 < mark_count guess (get_pattern L guess answer) c "y"%char); [|lia].
      apply cnt_pos. exists i. split; [apply elem_of_seq; lia|].
      by rewrite !bool_decide_true.
    + rewrite marks_eq_occurrences; [by apply occurrences_pos|].
      apply cnt_pos. exists i. split; [apply elem_of_seq; lia|].
      by rewrite !bool_decide_true.
Qed.

End Pattern.

(* ------------------------------------------------------------------ *)
(** ** check_guess against _get_pattern *)

Lemma remaining_letters_remove c sl :
  remaining_letters (list_remove (Some c) sl) = list_remove c (remaining_letters sl).
Proof.
  induction sl as [|[x|] sl IH]; cbn [list_remove remaining_letters]; [done| |].
  - destruct (decide (Some c = Some x)) as [Hx|Hx].
    + injection Hx as ->. cbn [remaining_letters list_remove].
      by rewrite decide_True.
    + cbn [remaining_letters list_remove]. rewrite decide_False by congruence.
      by rewrite IH.
  - rewrite decide_False by congruence. cbn [remaining_letters]. by rewrite IH.
Qed.

Lemma elem_remaining_letters c sl : Some c ∈ sl <-> c ∈ remaining_letters sl.
Proof.
  induction sl as [|[x|] sl IH]; simpl.
  - split; intros H; inversion H.
  - rewrite !list_elem_of_In. simpl. rewrite <- !list_elem_of_In, IH.
    split; intros [H|H]; auto; [injection H as ->|subst]; auto.
  - rewrite !list_elem_of_In. simpl. rewrite <- !list_elem_of_In, IH.
    split; [intros [H|H]; [discriminate|done]|auto].
Qed.

Lemma remaining_letters_map (answer : word) (u : list bool) js :
  remaining_letters
    (map (fun j => if nth j u true then None else Some (char_at answer j)) js)
  = map (char_at answer) (List.filter (fun j => negb (nth j u true)) js).
Proof. induction js as [|j js IH]; simpl; [done|]. by destruct (nth j u true); simpl; rewrite IH. Qed.

Lemma list_as_map_nth {A} (l : list A) d :
  l = map (fun j => nth j l d) (seq 0 (length l)).
Proof.
  induction l as [|x l IH]; [done|]. simpl. f_equal.
  rewrite <- seq_shift, map_map. simpl. exact IH.
Qed.

Lemma free_letters_insert (answer : word) (u : list bool) c j js :
  NoDup js ->
  List.find (fun j => negb (nth j u true) && bool_decide (c = char_at answer j)) js
    = Some j ->
  j < length u ->
  map (char_at answer) (List.filter (fun j' => negb (nth j' (<[j:=true]> u) true)) js)
  = list_remove c (map (char_at answer) (List.filter (fun j' => negb (nth j' u true)) js)).
Proof.
  intros Hnd. induction Hnd as [|k js Hk Hnd IH]; intros Hf Hj; [discriminate|].
  simpl in Hf. simpl. rewrite nth_insert.
  destruct (decide (k = j)) as [->|Hne].
  - rewrite decide_True by done. simpl.
    destruct (negb (nth j u true) && bool_decide (c = char_at answer j)) eqn:E.
    + apply andb_true_iff in E as [E1 E2]. apply bool_decide_eq_true in E2.
      rewrite E1. simpl. rewrite decide_True by done.
      f_equal. apply List.filter_ext_in. intros j' Hj'.
      rewrite nth_insert, decide_False; [done|].
      intros [-> _]. apply Hk, list_elem_of_In, Hj'.
    + exfalso. apply find_some in Hf as [Hin _]. apply Hk, list_elem_of_In, Hin.
  - rewrite decide_False by tauto.
    destruct (negb (nth k u true) && bool_decide (c = char_at answer k)) eqn:E;
      [congruence|].
    destruct (nth k u true) eqn:Ek; simpl.
    + by apply IH.
    + simpl in E. apply bool_decide_eq_false in E.
      rewrite decide_False by done. f_equal. by apply IH.
Qed.

Lemma find_free_letters (answer : word) (u : list bool) c js :
  List.find (fun j => negb (nth j u true) && bool_decide (c = char_at answer j)) js
    = None <->
  c ∉ map (char_at answer) (List.filter (fun j => negb (nth j u true)) js).
Proof.
  induction js as [|k js IH]; simpl.
  - split; [intros _ H; inversion H|done].
  - destruct (nth k u true); simpl.
    + exact IH.
    + case_bool_decide as Hc; simpl.
      * split; [discriminate|]. intros H. exfalso. apply H. rewrite Hc. constructor.
      * rewrite IH. split; intros H1 H2; apply H1.
        -- inversion H2; subst; [done|done].
        -- by constructor.
Qed.

Section CheckGuess.
Variables (L : nat) (guess answer : word).
Hypothesis Hg : length guess = L.
Hypothesis Ha : length answer = L.

Lemma cg_pass1_inv k r sl :
  k <= L ->
  fold_left (cg_pass1_step guess) (seq 0 k)
    (replicate L EmptyString, map Some answer) = (r, sl) ->
  length r = L /\ length sl = L /\
  forall i, i < L ->
    nth i r EmptyString
      = (if (i <? k) && is_exact guess answer i then sq_green else EmptyString)
    /\ nth i sl None
      = (if (i <? k) && is_exact guess answer i then None
         else Some (char_at answer i)).
Proof.
  revert r sl. induction k as [|k IH]; intros r sl Hk Hf.
  - simpl in Hf. injection Hf as <- <-. rewrite length_replicate, length_map.
    split; [done|split; [done|]]. intros i Hi. simpl.
    rewrite nth_lookup, lookup_replicate_2 by done. split; [done|].
    rewrite (nth_indep _ None (Some " "%char)) by (rewrite length_map; lia).
    by rewrite map_nth.
  - rewrite seq_S, fold_left_app in Hf. simpl in Hf.
    destruct (fold_left (cg_pass1_step guess) (seq 0 k)
               (replicate L EmptyString, map Some answer)) as [r0 sl0] eqn:E.
    destruct (IH r0 sl0 ltac:(lia) eq_refl) as (Hr0 & Hs0 & Hi0).
    unfold cg_pass1_step in Hf.
    destruct (Hi0 k ltac:(lia)) as [_ Hk0]. rewrite Nat.ltb_irrefl in Hk0. simpl in Hk0.
    rewrite Hk0 in Hf.
    assert (Hlt : forall i, i <> k -> (i <? S k) = (i <? k)).
    { intros i Hi. apply eq_bool_prop_intro. rewrite !Is_true_true, !Nat.ltb_lt. split; lia. }
    assert (Hkk : (k <? S k) = true) by (apply Nat.ltb_lt; lia).
    unfold is_exact in *.
    case_decide as Hex.
    + injection Hex as Hex. injection Hf as <- <-. rewrite !length_insert.
      split; [done|split; [done|]]. intros i Hi.
      rewrite !nth_insert, Hr0, Hs0.
      destruct (decide (i = k)) as [->|Hne].
      * rewrite !decide_True by lia. rewrite Hkk, bool_decide_true by done. done.
      * rewrite !decide_False by lia. rewrite Hlt by done. apply Hi0, Hi.
    + injection Hf as <- <-. split; [done|split; [done|]]. intros i Hi.
      destruct (decide (i = k)) as [->|Hne].
      * rewrite Hkk, bool_decide_false by congruence.
        destruct (Hi0 k Hi) as [H1 H2].
        rewrite Nat.ltb_irrefl in H1, H2. simpl in H1, H2. done.
      * rewrite Hlt by done. apply Hi0, Hi.
Qed.

Definition sim_rel (p : list ascii) (u : list bool) (r : list string)
    (sl : list (option ascii)) : Prop :=
  length r = L /\
  (forall i, i < L -> nth i r EmptyString = sim_entry (char_at p i)) /\
  remaining_letters sl = free_letters L answer u.

Lemma sim_rel_init p u r sl :
  pass1 L guess answer = (p, u) ->
  fold_left (cg_pass1_step guess) (seq 0 L)
    (replicate L EmptyString, map Some answer) = (r, sl) ->
  sim_rel p u r sl.
Proof.
  intros Hp Hc. destruct (pass1_result L guess answer Hg Ha p u Hp) as (Hlp & Hlu & Hi).
  destruct (cg_pass1_inv L r sl (le_n L) Hc) as (Hlr & Hls & Hj).
  split; [done|split].
  - intros i Hi'. destruct (Hi i Hi') as [-> _]. destruct (Hj i Hi') as [-> _].
    replace (i <? L) with true by (symmetry; apply Nat.ltb_lt; lia). simpl.
    by destruct (is_exact guess answer i).
  - rewrite (list_as_map_nth sl None), Hls. unfold free_letters.
    rewrite <- remaining_letters_map. f_equal. apply map_ext_in.
    intros j Hj'. apply in_seq in Hj'. destruct (Hj j ltac:(lia)) as [_ ->].
    destruct (Hi j ltac:(lia)) as [_ ->].
    replace (j <? L) with true by (symmetry; apply Nat.ltb_lt; lia). done.
Qed.

Lemma sim_rel_step k p u r sl :
  k < L -> pass2_inv L guess answer k p u -> sim_rel p u r sl ->
  sim_rel (fst (pass2_step L guess answer (p, u) k))
          (snd (pass2_step L guess answer (p, u) k))
          (fst (cg_pass2_step guess (r, sl) k))
          (snd (cg_pass2_step guess (r, sl) k)).
Proof.
  intros Hk (Hlp & Hlu & Hdom & _) (Hlr & Hri & Hrem).
  unfold pass2_step, cg_pass2_step. rewrite (Hri k Hk).
  destruct (Hdom k Hk) as [_ Hval].
  case_decide as Hdash.
  - rewrite Hdash. rewrite decide_True by reflexivity.
    destruct (first_free L u (char_at guess k) answer) as [j|] eqn:Hff.
    + assert (Hin : char_at guess k ∈ free_letters L answer u).
      { destruct (decide (char_at guess k ∈ free_letters L answer u)) as [H|H]; [done|].
        unfold free_letters in H. apply find_free_letters in H.
        unfold first_free in Hff. congruence. }
      rewrite decide_True
        by (apply elem_remaining_letters; by rewrite Hrem).
      simpl. split; [by rewrite length_insert|split].
      * intros i Hi. rewrite nth_insert, char_at_insert, Hlr, Hlp.
        case_decide; [reflexivity|]. apply Hri, Hi.
      * rewrite remaining_letters_remove, Hrem. unfold free_letters.
        symmetry. apply (free_letters_insert answer u (char_at guess k)).
        -- apply NoDup_seq.
        -- exact Hff.
        -- unfold first_free in Hff. apply find_some in Hff as [Hj _].
           apply in_seq in Hj. lia.
    + assert (Hnin : char_at guess k ∉ free_letters L answer u).
      { unfold free_letters. apply find_free_letters. exact Hff. }
      rewrite decide_False
        by (rewrite elem_remaining_letters, Hrem; exact Hnin).
      simpl. split; [done|split; [done|done]].
  - rewrite decide_False.
    + simpl. split; [done|split; [done|done]].
    + destruct Hval as [Hv | [Hv | Hv]]; rewrite Hv; [discriminate|discriminate|by destruct Hdash].
Qed.

Lemma sim_rel_fold k :
  k <= L ->
  forall p u r sl r1 sl1 p1 u1,
    pass1 L guess answer = (p1, u1) ->
    fold_left (cg_pass1_step guess) (seq 0 L)
      (replicate L EmptyString, map Some answer) = (r1, sl1) ->
    fold_left (pass2_step L guess answer) (seq 0 k) (p1, u1) = (p, u) ->
    fold_left (cg_pass2_step guess) (seq 0 k) (r1, sl1) = (r, sl) ->
    sim_rel p u r sl.
Proof.
  induction k as [|k IH]; intros Hk p u r sl r1 sl1 p1 u1 H1 H2 H3 H4.
  - simpl in H3, H4. injection H3 as <- <-. injection H4 as <- <-.
    by apply sim_rel_init.
  - rewrite seq_S, fold_left_app in H3, H4. simpl in H3, H4.
    destruct (fold_left (pass2_step L guess answer) (seq 0 k) (p1, u1))
      as [p0 u0] eqn:E3.
    destruct (fold_left (cg_pass2_step guess) (seq 0 k) (r1, sl1))
      as [r0 sl0] eqn:E4.
    assert (Hinv : pass2_inv L guess answer k p0 u0).
    { apply (pass2_inv_fold L guess answer Hg Ha k ltac:(lia)). by rewrite H1. }
    pose proof (sim_rel_step k p0 u0 r0 sl0 ltac:(lia) Hinv
                  (IH ltac:(lia) p0 u0 r0 sl0 r1 sl1 p1 u1 H1 H2 E3 E4)) as H.
    by rewrite H3, H4 in H.
Qed.

End CheckGuess.

(* ------------------------------------------------------------------ *)
(** ** Letter frequencies *)

Lemma incr_letters_lookup (l : word) (freq : gmap ascii nat) c :
  NoDup l ->
  default 0 (fold_left (fun freq letter =>
                          <[letter := default 0 (freq !! letter) + 1]> freq) l freq !! c)
  = default 0 (freq !! c) + (if bool_decide (c ∈ l) then 1 else 0).
Proof.
  intros Hnd. revert freq. induction Hnd as [|x l Hx Hnd IH]; intros freq; simpl.
  - rewrite ?bool_decide_false by (intros H; inversion H). lia.
  - rewrite IH. destruct (decide (c = x)) as [->|Hne].
    + rewrite lookup_insert_eq. simpl.
      rewrite bool_decide_false by done. rewrite bool_decide_true by constructor. lia.
    + rewrite lookup_insert_ne by done. f_equal.
      rewrite (bool_decide_ext (c ∈ l) (c ∈ x :: l)); [done|]. rewrite elem_of_cons. tauto.
Qed.

Lemma add_word_letters_lookup freq (w : word) c :
  default 0 (add_word_letters freq w !! c)
  = default 0 (freq !! c) + (if bool_decide (c ∈ w) then 1 else 0).
Proof.
  unfold add_word_letters. rewrite incr_letters_lookup by apply NoDup_remove_dups.
  f_equal. rewrite (bool_decide_ext (c ∈ remove_dups w) (c ∈ w)); [done|]. apply elem_of_remove_dups.
Qed.

Lemma letter_frequency_fold (P : list word) freq c :
  default 0 (fold_left add_word_letters P freq !! c)
  = default 0 (freq !! c) + candidates_containing P c.
Proof.
  revert freq. induction P as [|w P IH]; intros freq; simpl; [unfold candidates_containing; simpl; lia|].
  rewrite IH, add_word_letters_lookup. unfold candidates_containing. simpl.
  destruct (bool_decide (c ∈ w)); simpl; lia.
Qed.

Lemma score_letter_frequency (P : list word) (w : word) :
  score (letter_frequency P) w = spec_score P w.
Proof.
  unfold score, spec_score, letter_frequency. f_equal. apply map_ext. intros c.
  rewrite letter_frequency_fold. by rewrite lookup_empty.
Qed.

(** The scan [if score > max_score: max_score, best_word = score, word]. *)
Lemma frequency_scan freq (l : list word) (b : word) (m : Z) :
  let r := fold_left (frequency_step freq) l (b, m) in
  (forall w, w ∈ l -> (Z.of_nat (score freq w) <= snd r)%Z) /\
  (r = (b, m) \/
   exists pre post, l = pre ++ fst r :: post /\
     snd r = Z.of_nat (score freq (fst r)) /\ (m < snd r)%Z /\
     forall w, w ∈ pre -> (Z.of_nat (score freq w) < snd r)%Z) /\
  (m <= snd r)%Z.
Proof.
  revert b m. induction l as [|x l IH]; intros b m; simpl.
  - split; [intros w Hw; inversion Hw|]. split; [by left|lia].
  - case_decide as Hlt.
    + destruct (IH x (Z.of_nat (score freq x))) as (H1 & H2 & H3).
      split; [|split].
      * intros w Hw. apply elem_of_cons in Hw as [->|Hw]; [lia|auto].
      * right. destruct H2 as [Heq|(pre & post & Hl & Hs & Hm & Hpre)].
        -- rewrite Heq. simpl. exists [], l. split; [done|]. split; [done|].
           split; [lia|]. intros w Hw. inversion Hw.
        -- exists (x :: pre), post. split; [simpl; by f_equal|].
           split; [done|]. split; [lia|].
           intros w Hw. apply elem_of_cons in Hw as [->|Hw]; [lia|auto].
      * lia.
    + destruct (IH b m) as (H1 & H2 & H3). split; [|split].
      * intros w Hw. apply elem_of_cons in Hw as [->|Hw]; [lia|auto].
      * destruct H2 as [Heq|(pre & post & Hl & Hs & Hm & Hpre)]; [by left|].
        right. exists (x :: pre), post. split; [simpl; by f_equal|].
        split; [done|]. split; [done|].
        intros w Hw. apply elem_of_cons in Hw as [->|Hw]; [lia|auto].
      * done.
Qed.

(* ------------------------------------------------------------------ *)
(** ** Minimax *)

Lemma filter_existsb_false {A} (f : A -> bool) l :
  existsb f l = false -> length (List.filter f l) = 0.
Proof. induction l as [|x l IH]; simpl; [done|]. destruct (f x); simpl; [discriminate|]. auto. Qed.

Lemma pattern_counts_fold (L : nat) (P : list word) (g : word) (m0 : gmap (list ascii) nat) (p : word) :
  fold_left (count_pattern L g) P m0 !! p
  = if existsb (fun a => bool_decide (get_pattern L g a = p)) P
    then Some (default 0 (m0 !! p) + bucket_size L P g p) else m0 !! p.
Proof.
  revert m0. induction P as [|a P IH]; intros m0; simpl; [done|].
  rewrite IH. unfold bucket_size, count_pattern. simpl.
  destruct (decide (get_pattern L g a = p)) as [<-|Hne].
  - rewrite !bool_decide_true by done. simpl. rewrite lookup_insert_eq. simpl.
    destruct (existsb _ P) eqn:E; [f_equal; lia|].
    rewrite filter_existsb_false by done. f_equal; lia.
  - rewrite !bool_decide_false by done. simpl. by rewrite lookup_insert_ne.
Qed.

(** [max(pattern_counts.values())], with 0 for an empty dict. *)
Lemma map_fold_max (m : gmap (list ascii) nat) :
  (forall k v, m !! k = Some v -> v <= map_fold (fun _ v acc => max v acc) 0 m) /\
  (map_fold (fun _ v acc => max v acc) 0 m = 0 \/
   exists k, m !! k = Some (map_fold (fun _ v acc => max v acc) 0 m)).
Proof.
  apply (map_fold_weak_ind (fun r m => (forall k v, m !! k = Some v -> v <= r) /\
                                       (r = 0 \/ exists k, m !! k = Some r))).
  - split; [intros k v H; by rewrite lookup_empty in H|by left].
  - intros i x m' r Hi [H1 H2]. split.
    + intros k v Hk. destruct (decide (k = i)) as [->|Hne].
      * rewrite lookup_insert_eq in Hk. injection Hk as <-. lia.
      * rewrite lookup_insert_ne in Hk by done. specialize (H1 k v Hk). lia.
    + destruct (Nat.max_spec x r) as [[_ ->]|[_ ->]].
      * destruct H2 as [->|[k Hk]]; [by left|right]. exists k.
        rewrite lookup_insert_ne; [done|]. intros ->. congruence.
      * right. exists i. by rewrite lookup_insert_eq.
Qed.

Lemma list_max_in x l : In x l -> x <= list_max l.
Proof.
  intros Hx. pose proof (proj1 (list_max_le l (list_max l)) (le_n _)) as HF.
  rewrite List.Forall_forall in HF. by apply HF.
Qed.

Lemma max_remaining_worst (L : nat) (P : list word) (g : word) :
  max_remaining L P g = worst_case_bucket L P g.
Proof.
  unfold max_remaining. destruct (map_fold_max (pattern_counts L P g)) as [H1 H2].
  remember (map_fold _ 0 (pattern_counts L P g)) as r eqn:Er. clear Er.
  apply Nat.le_antisymm.
  - destruct H2 as [->|[k Hk]]; [lia|].
    unfold pattern_counts in Hk. rewrite pattern_counts_fold, lookup_empty in Hk.
    destruct (existsb _ P) eqn:E; [|discriminate]. injection Hk as Hk. simpl in Hk.
    apply existsb_exists in E as [a [Ha Hpa]]. apply bool_decide_eq_true in Hpa.
    rewrite <- Hk. unfold worst_case_bucket. apply list_max_in.
    apply in_map_iff. exists a. by rewrite Hpa.
  - unfold worst_case_bucket. apply list_max_le. apply List.Forall_forall.
    intros x Hx. apply in_map_iff in Hx as [a [<- Ha]].
    apply (H1 (get_pattern L g a)). unfold pattern_counts.
    rewrite pattern_counts_fold, lookup_empty.
    rewrite (proj2 (existsb_exists _ _)); [done|].
    exists a. split; [done|]. by rewrite bool_decide_true.
Qed.

(** What the loop over [guess_candidates] knows after a prefix [seen]. *)
Definition minimax_inv (L : nat) (P seen : list word) (st : word * option nat)
    : Prop :=
  match snd st with
  | None => forall g, g ∈ seen -> length g <> L
  | Some m =>
      fst st ∈ seen /\ length (fst st) = L /\ worst_case_bucket L P (fst st) = m /\
      (forall g, g ∈ seen -> length g = L -> m <= worst_case_bucket L P g) /\
      ((exists g, g ∈ seen /\ length g = L /\ worst_case_bucket L P g = m /\ g ∈ P)
       -> fst st ∈ P)
  end.

Lemma minimax_inv_step (L : nat) (P seen : list word) st x :
  minimax_inv L P seen st ->
  minimax_inv L P (seen ++ [x]) (minimax_step L P st x).
Proof.
  destruct st as [b mmr]. unfold minimax_step.
  rewrite max_remaining_worst. unfold minimax_inv. simpl.
  set (m := worst_case_bucket L P x).
  assert (Hseen : forall g, g ∈ seen ++ [x] <-> g ∈ seen \/ g = x).
  { intros g. rewrite elem_of_app, list_elem_of_singleton. tauto. }
  destruct (length x =? L) eqn:Hx; simpl.
  - apply Nat.eqb_eq in Hx.
    destruct (lt_inf m mmr) eqn:Hlt; simpl.
    + intros Hinv. split; [apply Hseen; by right|]. split; [done|]. split; [done|].
      destruct mmr as [m0|]; simpl in Hlt.
      * apply Nat.ltb_lt in Hlt. destruct Hinv as (_ & _ & _ & Hmin & _).
        split.
        -- intros g Hg Hlg. apply Hseen in Hg as [Hg| ->]; [|done].
           specialize (Hmin g Hg Hlg). lia.
        -- intros (g & Hg & Hlg & Hwg & HgP). apply Hseen in Hg as [Hg| ->]; [|done].
           specialize (Hmin g Hg Hlg). lia.
      * split.
        -- intros g Hg Hlg. apply Hseen in Hg as [Hg| ->]; [|done].
           by destruct (Hinv g Hg).
        -- intros (g & Hg & Hlg & Hwg & HgP). apply Hseen in Hg as [Hg| ->]; [|done].
           by destruct (Hinv g Hg).
    + destruct mmr as [m0|]; [|discriminate]. simpl in Hlt.
      apply Nat.ltb_ge in Hlt.
      intros (Hb & Hlb & Hwb & Hmin & Htie).
      destruct (decide (Some m0 = Some m)) as [Heq|Hne].
      * injection Heq as Heq.
        destruct (bool_decide (x ∈ P) && negb (bool_decide (b ∈ P))) eqn:Hpref; simpl.
        -- apply andb_true_iff in Hpref as [HxP _]. apply bool_decide_eq_true in HxP.
           split; [apply Hseen; by right|]. split; [done|]. split; [lia|]. split.
           ++ intros g Hg Hlg. apply Hseen in Hg as [Hg| ->]; [by apply Hmin|lia].
           ++ intros _. done.
        -- split; [apply Hseen; by left|]. split; [done|]. split; [done|]. split.
           ++ intros g Hg Hlg. apply Hseen in Hg as [Hg| ->]; [by apply Hmin|lia].
           ++ intros (g & Hg & Hlg & Hwg & HgP). apply Hseen in Hg as [Hg| ->].
              ** apply Htie. eauto 6.
              ** apply andb_false_iff in Hpref as [Hn|Hn].
                 { rewrite bool_decide_true in Hn by done. discriminate. }
                 apply negb_false_iff, bool_decide_eq_true in Hn. done.
      * simpl. split; [apply Hseen; by left|]. split; [done|]. split; [done|]. split.
        -- intros g Hg Hlg. apply Hseen in Hg as [Hg| ->]; [by apply Hmin|lia].
        -- intros (g & Hg & Hlg & Hwg & HgP). apply Hseen in Hg as [Hg| ->].
           ++ apply Htie. eauto 6.
           ++ exfalso. apply Hne. by rewrite <- Hwg.
  - apply Nat.eqb_neq in Hx. destruct mmr as [m0|]; simpl.
    + intros (Hb & Hlb & Hwb & Hmin & Htie).
      split; [apply Hseen; by left|]. split; [done|]. split; [done|]. split.
      * intros g Hg Hlg. apply Hseen in Hg as [Hg| ->]; [by apply Hmin|done].
      * intros (g & Hg & Hlg & Hwg & HgP). apply Hseen in Hg as [Hg| ->]; [|done].
        apply Htie. eauto 6.
    + intros Hinv g Hg. apply Hseen in Hg as [Hg| ->]; [by apply Hinv|done].
Qed.

Lemma minimax_inv_fold (L : nat) (P : list word) l : forall seen st,
  minimax_inv L P seen st ->
  minimax_inv L P (seen ++ l) (fold_left (minimax_step L P) l st).
Proof.
  induction l as [|x l IH]; intros seen st H; simpl.
  - by rewrite app_nil_r.
  - replace (seen ++ x :: l) with ((seen ++ [x]) ++ l) by by rewrite <- app_assoc.
    apply IH. by apply minimax_inv_step.
Qed.

(* ------------------------------------------------------------------ *)
(** ** The filter's tests *)

Lemma green_regex_match_spec (pat w : word) :
  length w = length pat -> "010"%char ∉ w ->
  green_regex_match pat w = true <->
  forall i c, pat !! i = Some c -> c <> "-"%char -> w !! i = Some c.
Proof.
  revert w. induction pat as [|p pat IH]; intros w Hl Hnl.
  - destruct w; [|discriminate]. simpl. split; [intros _ i c Hi; inversion Hi|done].
  - destruct w as [|c w]; [discriminate|]. simpl in Hl. injection Hl as Hl.
    assert (Hnl' : "010"%char ∉ w) by (intros H; apply Hnl; by constructor).
    assert (Hc : c <> "010"%char) by (intros ->; apply Hnl; constructor).
    simpl. rewrite andb_true_iff, IH by done. split.
    + intros [H0 Hrest] i x Hi Hx. destruct i as [|i]; simpl in Hi |- *.
      * injection Hi as <-. rewrite decide_False in H0 by done.
        apply bool_decide_eq_true in H0. by subst.
      * by apply Hrest.
    + intros H. split.
      * case_decide as Hp; [by apply bool_decide_eq_true|].
        apply bool_decide_eq_true. specialize (H 0 p eq_refl Hp). simpl in H.
        by injection H.
      * intros i x Hi Hx. apply (H (S i)); done.
Qed.

Lemma no_grey_letter_spec (gr : gset ascii) (w : word) :
  negb (existsb (fun c => bool_decide (c ∈ gr)) w) = true <->
  forall c, c ∈ w -> c ∉ gr.
Proof.
  rewrite negb_true_iff. split.
  - intros H c Hc Hg. assert (existsb (fun c => bool_decide (c ∈ gr)) w = true); [|congruence].
    apply existsb_exists. exists c. split; [by apply list_elem_of_In|by apply bool_decide_eq_true].
  - intros H. destruct (existsb _ w) eqn:E; [|done].
    apply existsb_exists in E as [c [Hc Hg]]. apply bool_decide_eq_true in Hg.
    exfalso. apply (H c); [by apply list_elem_of_In|done].
Qed.

Lemma forallb_map_to_list {V} (f : ascii -> V -> bool) (m : gmap ascii V) :
  forallb (fun '(k, v) => f k v) (map_to_list m) = true <->
  forall k v, m !! k = Some v -> f k v = true.
Proof.
  rewrite forallb_forall. split.
  - intros H k v Hk. apply (H (k, v)). apply list_elem_of_In, elem_of_map_to_list, Hk.
  - intros H [k v] Hin. apply H. apply elem_of_map_to_list, list_elem_of_In, Hin.
Qed.

Lemma min_counts_ok_spec (mins : gmap ascii nat) (w : word) :
  min_counts_ok mins w = true <->
  forall c n, mins !! c = Some n -> n <= occurrences c w.
Proof.
  unfold min_counts_ok.
  rewrite (forallb_map_to_list (fun c n => negb (occurrences c w <? n))).
  split; intros H c n Hc; specialize (H c n Hc).
  - apply negb_true_iff, Nat.ltb_ge in H. done.
  - apply negb_true_iff, Nat.ltb_ge. done.
Qed.

Lemma max_counts_ok_spec (maxs : gmap ascii nat) (w : word) :
  max_counts_ok maxs w = true <->
  forall c n, maxs !! c = Some n -> occurrences c w = n.
Proof.
  unfold max_counts_ok.
  rewrite (forallb_map_to_list (fun c n => occurrences c w =? n)).
  split; intros H c n Hc; specialize (H c n Hc); by apply Nat.eqb_eq.
Qed.

Lemma yellow_ok_spec (ym : gmap ascii (gset nat)) (w : word) :
  yellow_ok ym w = true <->
  forall c ps pos, ym !! c = Some ps -> pos ∈ ps -> w !! pos <> Some c.
Proof.
  unfold yellow_ok.
  rewrite (forallb_map_to_list (fun c ps =>
             negb (existsb (fun pos => bool_decide (w !! pos = Some c)) (elements ps)))).
  split.
  - intros H c ps pos Hc Hpos Hw. specialize (H c ps Hc).
    apply negb_true_iff in H.
    assert (existsb (fun pos => bool_decide (w !! pos = Some c)) (elements ps) = true);
      [|congruence].
    apply existsb_exists. exists pos. split.
    + apply list_elem_of_In, elem_of_elements, Hpos.
    + by apply bool_decide_eq_true.
  - intros H c ps Hc. apply negb_true_iff.
    destruct (existsb _ _) eqn:E; [|done].
    apply existsb_exists in E as [pos [Hpos Hw]]. apply bool_decide_eq_true in Hw.
    exfalso. apply (H c ps pos Hc); [|done].
    apply elem_of_elements, list_elem_of_In, Hpos.
Qed.

Lemma word_ok_spec (st : knowledge) (w : word) :
  length w = length (green_pattern st) -> "010"%char ∉ w ->
  word_ok st w = true <->
  (forall i c, green_pattern st !! i = Some c -> c <> "-"%char -> w !! i = Some c) /\
  (forall c, c ∈ w -> c ∉ greys st) /\
  (forall c n, letter_min_counts st !! c = Some n -> n <= occurrences c w) /\
  (forall c n, letter_max_counts st !! c = Some n -> occurrences c w = n) /\
  (forall c ps pos, yellow_misplaced st !! c = Some ps -> pos ∈ ps ->
     w !! pos <> Some c).
Proof.
  intros Hl Hnl. unfold word_ok. rewrite !andb_true_iff.
  rewrite green_regex_match_spec, no_grey_letter_spec, min_counts_ok_spec,
    max_counts_ok_spec, yellow_ok_spec by done.
  tauto.
Qed.

(* ------------------------------------------------------------------ *)
(** ** What one call of [_update_knowledge] does *)

Lemma mark_fold_spec (g r : word) (gp0 : list ascii) (ym0 : gmap ascii (gset nat)) k :
  forall gp ym, fold_left (mark_step g r) (seq 0 k) (gp0, ym0) = (gp, ym) ->
  length gp = length gp0 /\
  (forall i, i < length gp0 -> char_at gp i =
     if (i <? k) && bool_decide (char_at r i = "g"%char) then char_at g i
     else char_at gp0 i) /\
  (forall c ps, ym0 !! c = Some ps -> exists ps', ym !! c = Some ps' /\ ps ⊆ ps') /\
  (forall c ps', ym !! c = Some ps' -> (exists ps, ym0 !! c = Some ps) \/
     exists i, i < k /\ char_at g i = c /\ char_at r i = "y"%char) /\
  (forall i, i < k -> char_at r i = "y"%char -> exists ps, ym !! char_at g i = Some ps).
Proof.
  induction k as [|k IH]; intros gp ym Hf.
  - simpl in Hf. injection Hf as <- <-. split; [done|]. split; [intros i _; done|].
    split; [intros c ps H; exists ps; split; [done|set_solver]|].
    split; [intros c ps' H; left; eauto|]. intros i Hi; lia.
  - rewrite seq_S, fold_left_app in Hf. simpl in Hf.
    destruct (fold_left (mark_step g r) (seq 0 k) (gp0, ym0)) as [gp1 ym1] eqn:E.
    destruct (IH gp1 ym1 eq_refl) as (Hl & Hc & Hy1 & Hy2 & Hy3).
    assert (Hlt : forall i, i <> k -> (i <? S k) = (i <? k)).
    { intros i Hi. apply eq_bool_prop_intro. rewrite !Is_true_true, !Nat.ltb_lt. split; lia. }
    assert (Hkk : (k <? S k) = true) by (apply Nat.ltb_lt; lia).
    assert (Hk0 : (k <? k) = false) by apply Nat.ltb_irrefl.
    unfold mark_step in Hf.
    case_decide as Hg.
    + injection Hf as <- <-. rewrite length_insert. split; [done|]. split.
      * intros i Hi. rewrite char_at_insert. destruct (decide (i = k)) as [->|Hne].
        -- rewrite decide_True by lia. by rewrite Hkk, bool_decide_true.
        -- rewrite decide_False by lia. rewrite Hlt by done. apply Hc. lia.
      * split; [done|]. split.
        -- intros c ps' H. destruct (Hy2 c ps' H) as [H1|(i & Hi & H2)]; [by left|right].
           exists i. split; [lia|done].
        -- intros i Hi Hy. destruct (decide (i = k)) as [->|Hne]; [congruence|].
           apply Hy3; [lia|done].
    + case_decide as Hy.
      * injection Hf as <- <-. split; [done|]. split; [|split; [|split]].
        -- intros i Hi. destruct (decide (i = k)) as [->|Hne].
           ++ rewrite Hkk, bool_decide_false by done. rewrite Hc by done. by rewrite Hk0.
           ++ rewrite Hlt by done. by apply Hc.
        -- intros c ps H. destruct (Hy1 c ps H) as (ps1 & H1 & Hsub).
           destruct (decide (c = char_at g k)) as [->|Hne].
           ++ rewrite lookup_insert_eq. eexists; split; [done|]. rewrite H1. simpl. set_solver.
           ++ rewrite lookup_insert_ne by congruence. eauto.
        -- intros c ps' H. destruct (decide (c = char_at g k)) as [->|Hne].
           ++ right. exists k. split; [lia|done].
           ++ rewrite lookup_insert_ne in H by congruence.
              destruct (Hy2 c ps' H) as [H1|(i & Hi & H2)]; [by left|right].
              exists i. split; [lia|done].
        -- intros i Hi Hyi. destruct (decide (char_at g i = char_at g k)) as [Heq|Hne].
           ++ rewrite Heq, lookup_insert_eq. eauto.
           ++ rewrite lookup_insert_ne by congruence. apply Hy3; [|done].
              destruct (decide (i = k)) as [->|]; [done|lia].
      * injection Hf as <- <-. split; [done|]. split.
        -- intros i Hi. destruct (decide (i = k)) as [->|Hne].
           ++ rewrite Hkk, bool_decide_false by done. rewrite Hc by done. by rewrite Hk0.
           ++ rewrite Hlt by done. by apply Hc.
        -- split; [done|]. split.
           ++ intros c ps' H. destruct (Hy2 c ps' H) as [H1|(i & Hi & H2)]; [by left|right].
              exists i. split; [lia|done].
           ++ intros i Hi Hyi. destruct (decide (i = k)) as [->|Hne]; [done|].
              apply Hy3; [lia|done].
Qed.

Lemma count_fold_spec (g r : word) (l : list ascii) :
  NoDup l ->
  forall mins maxs grs mins' maxs' grs',
  fold_left (count_step g r) l (mins, maxs, grs) = (mins', maxs', grs') ->
  forall c,
    mins' !! c = (if bool_decide (c ∈ l)
                  then Some (max (default 0 (mins !! c))
                                 (mark_count g r c "g"%char + mark_count g r c "y"%char))
                  else mins !! c) /\
    maxs' !! c = (if bool_decide (c ∈ l /\ 0 < mark_count g r c "-"%char)
                  then Some (mark_count g r c "g"%char + mark_count g r c "y"%char)
                  else maxs !! c) /\
    (c ∈ grs' <-> c ∈ grs \/
       (c ∈ l /\ mark_count g r c "g"%char = 0 /\ mark_count g r c "y"%char = 0)).
Proof.
  induction 1 as [|x l Hx Hnd IH]; intros mins maxs grs mins' maxs' grs' Hf c;
    cbn [fold_left] in Hf.
  - injection Hf as <- <- <-.
    rewrite bool_decide_false by (intros H; inversion H).
    rewrite bool_decide_false by (intros [H _]; inversion H).
    split; [done|]. split; [done|].
    split; [by left|]. intros [H|[H _]]; [done|inversion H].
  - destruct (count_step g r (mins, maxs, grs) x) as [[m1 x1] g1] eqn:Es.
    specialize (IH m1 x1 g1 mins' maxs' grs' Hf c) as (Hm & Hx1 & Hg1).
    unfold count_step in Es. injection Es as Em Ex Eg.
    destruct (decide (c = x)) as [->|Hne].
    + rewrite bool_decide_false in Hm, Hx1 by tauto.
      rewrite bool_decide_true by constructor.
      rewrite Hm, Hx1, Hg1, <- Em, <- Ex, <- Eg. rewrite lookup_insert_eq.
      split; [done|]. split.
      * destruct (decide (0 < mark_count g r x "-"%char)) as [Hgr|Hgr].
        -- rewrite lookup_insert_eq. rewrite bool_decide_true; [done|].
           split; [constructor|done].
        -- rewrite bool_decide_false; [done|]. tauto.
      * destruct (decide (mark_count g r x "g"%char = 0 /\ mark_count g r x "y"%char = 0))
          as [Hz|Hz].
        -- rewrite elem_of_union, elem_of_singleton. split; [|tauto].
           intros [[H|H]|[H _]]; [right; split; [constructor|done]|by left|done].
        -- split; [intros [H|[H _]]; [by left|done]|].
           intros [H|(_ & H1 & H2)]; [by left|]. exfalso. tauto.
    + rewrite Hm, Hx1, Hg1, <- Em, <- Ex, <- Eg.
      rewrite lookup_insert_ne by congruence.
      assert (Hin : c ∈ x :: l <-> c ∈ l) by (rewrite elem_of_cons; tauto).
      rewrite (bool_decide_ext (c ∈ x :: l) (c ∈ l)) by done.
      rewrite (bool_decide_ext (c ∈ x :: l /\ _) (c ∈ l /\ 0 < mark_count g r c "-"%char))
        by tauto.
      split; [done|]. split.
      * destruct (decide (0 < mark_count g r x "-"%char)); [|done].
        by rewrite lookup_insert_ne by congruence.
      * destruct (decide (mark_count g r x "g"%char = 0 /\ mark_count g r x "y"%char = 0)).
        -- rewrite elem_of_union, elem_of_singleton. rewrite Hin. tauto.
        -- rewrite Hin. tauto.
Qed.

Lemma update_knowledge_spec (st : knowledge) (g r : word) :
  length (green_pattern (update_knowledge st g r)) = length (green_pattern st) /\
  (forall i, i < length (green_pattern st) ->
     char_at (green_pattern (update_knowledge st g r)) i =
     if (i <? length g) && bool_decide (char_at r i = "g"%char) then char_at g i
     else char_at (green_pattern st) i) /\
  (forall c ps, yellow_misplaced st !! c = Some ps ->
     exists ps', yellow_misplaced (update_knowledge st g r) !! c = Some ps' /\ ps ⊆ ps') /\
  (forall c ps', yellow_misplaced (update_knowledge st g r) !! c = Some ps' ->
     (exists ps, yellow_misplaced st !! c = Some ps) \/
     exists i, i < length g /\ char_at g i = c /\ char_at r i = "y"%char) /\
  (forall i, i < length g -> char_at r i = "y"%char ->
     exists ps, yellow_misplaced (update_knowledge st g r) !! char_at g i = Some ps) /\
  (forall c, letter_min_counts (update_knowledge st g r) !! c =
     if bool_decide (c ∈ g)
     then Some (max (default 0 (letter_min_counts st !! c))
                    (mark_count g r c "g"%char + mark_count g r c "y"%char))
     else letter_min_counts st !! c) /\
  (forall c, letter_max_counts (update_knowledge st g r) !! c =
     if bool_decide (c ∈ g /\ 0 < mark_count g r c "-"%char)
     then Some (mark_count g r c "g"%char + mark_count g r c "y"%char)
     else letter_max_counts st !! c) /\
  (forall c, c ∈ greys (update_knowledge st g r) <-> c ∈ greys st \/
     (c ∈ g /\ mark_count g r c "g"%char = 0 /\ mark_count g r c "y"%char = 0)).
Proof.
  unfold update_knowledge.
  destruct (fold_left (mark_step g r) (seq 0 (length g))
              (green_pattern st, yellow_misplaced st)) as [gp ym] eqn:E1.
  destruct (fold_left (count_step g r) (remove_dups g)
              (letter_min_counts st, letter_max_counts st, greys st))
    as [[mins maxs] grs] eqn:E2.
  simpl.
  destruct (mark_fold_spec g r _ _ (length g) gp ym E1) as (H1 & H2 & H3 & H4 & H5).
  pose proof (count_fold_spec g r (remove_dups g) (NoDup_remove_dups g) _ _ _ _ _ _ E2)
    as Hc.
  split; [done|]. split; [done|]. split; [done|]. split; [done|]. split; [done|].
  split; [|split].
  - intros c. destruct (Hc c) as (Hm & _ & _). rewrite Hm.
    by rewrite (bool_decide_ext (c ∈ remove_dups g) (c ∈ g)) by apply elem_of_remove_dups.
  - intros c. destruct (Hc c) as (_ & Hx & _). rewrite Hx.
    by rewrite (bool_decide_ext (c ∈ remove_dups g /\ 0 < mark_count g r c "-"%char)
                                (c ∈ g /\ 0 < mark_count g r c "-"%char))
      by (rewrite elem_of_remove_dups; tauto).
  - intros c. destruct (Hc c) as (_ & _ & Hg). rewrite Hg, elem_of_remove_dups. done.
Qed.

(* ------------------------------------------------------------------ *)
(** ** Knowledge gathered from feedback against one answer *)

Lemma lower_not_dash c : lower c -> c <> "-"%char.
Proof. intros H ->. unfold lower in H. cbv in H. lia. Qed.

Lemma lower_not_newline c : lower c -> c <> "010"%char.
Proof. intros H ->. unfold lower in H. cbv in H. lia. Qed.

Lemma lower_in (w : word) c : lower_word w -> c ∈ w -> lower c.
Proof. intros H Hc. unfold lower_word in H. rewrite Forall_forall in H. by apply H. Qed.

Lemma lookup_char_at (w : word) i : i < length w -> w !! i = Some (char_at w i).
Proof.
  intros Hi. unfold char_at. destruct (nth_lookup_or_length w i " "%char) as [H|H];
    [done|lia].
Qed.

Lemma char_at_lookup (w : word) i c : w !! i = Some c -> char_at w i = c.
Proof. intros H. unfold char_at. by apply nth_lookup_Some. Qed.

Lemma Forall2_char_at (R : ascii -> ascii -> Prop) (l l' : word) :
  length l = length l' ->
  (forall i, i < length l -> R (char_at l i) (char_at l' i)) -> Forall2 R l l'.
Proof.
  revert l'. induction l as [|x l IH]; intros [|y l'] Hl H; try discriminate.
  - constructor.
  - constructor.
    + apply (H 0). simpl. lia.
    + apply IH; [simpl in Hl; lia|]. intros i Hi. apply (H (S i)). simpl. lia.
Qed.

(** What a state learnt from true feedback against [answer] satisfies. *)
Definition consistent_inv (L : nat) (answer : word) (st : knowledge) : Prop :=
  length (green_pattern st) = L /\
  (forall i, i < L -> char_at (green_pattern st) i = "-"%char
                      \/ char_at (green_pattern st) i = char_at answer i) /\
  (forall c n, letter_max_counts st !! c = Some n -> n = occurrences c answer) /\
  (forall c n, letter_min_counts st !! c = Some n -> n <= occurrences c answer) /\
  (forall c, c ∈ greys st -> c ∉ answer) /\
  (forall c ps, yellow_misplaced st !! c = Some ps ->
     exists n, letter_min_counts st !! c = Some n /\ 0 < n) /\
  (forall i, i < L -> char_at (green_pattern st) i <> "-"%char ->
     exists n, letter_min_counts st !! char_at (green_pattern st) i = Some n /\ 0 < n) /\
  (forall c n, letter_min_counts st !! c = Some n -> 0 < n ->
     (exists ps, yellow_misplaced st !! c = Some ps) \/
     exists i, i < L /\ char_at (green_pattern st) i = c).

(** [st'] knows at least what [st] knows. *)
Definition refines (st st' : knowledge) : Prop :=
  Forall2 (fun a b => a = b \/ (a = "-"%char /\ b <> "010"%char))
          (green_pattern st) (green_pattern st') /\
  greys st ⊆ greys st' /\
  (forall c n, letter_min_counts st !! c = Some n ->
     exists n', letter_min_counts st' !! c = Some n' /\ n <= n') /\
  (forall c n, letter_max_counts st !! c = Some n -> letter_max_counts st' !! c = Some n) /\
  (forall c ps, yellow_misplaced st !! c = Some ps ->
     exists ps', yellow_misplaced st' !! c = Some ps' /\ ps ⊆ ps').

Lemma green_regex_match_refine (pat pat' w : word) :
  Forall2 (fun a b => a = b \/ (a = "-"%char /\ b <> "010"%char)) pat pat' ->
  green_regex_match pat' w = true -> green_regex_match pat w = true.
Proof.
  intros H. revert w. induction H as [|a b pat pat' Hab H IH]; intros w Hw; [done|].
  destruct w as [|c w]; [discriminate|]. simpl in Hw |- *.
  apply andb_true_iff in Hw as [H0 Hrest]. apply andb_true_iff. split; [|by apply IH].
  destruct Hab as [<-|[-> Hb]]; [done|].
  rewrite decide_True by done. apply bool_decide_eq_true.
  case_decide as Hbd.
  - by apply bool_decide_eq_true in H0.
  - apply bool_decide_eq_true in H0. congruence.
Qed.

Lemma word_ok_refines (st st' : knowledge) (w : word) :
  refines st st' -> word_ok st' w = true -> word_ok st w = true.
Proof.
  intros (Hgp & Hgr & Hmin & Hmax & Hym) Hok. unfold word_ok in *.
  rewrite !andb_true_iff in Hok |- *.
  destruct Hok as [[[[H1 H2] H3] H4] H5].
  split; [split; [split; [split|]|]|].
  - by apply (green_regex_match_refine _ (green_pattern st')).
  - rewrite no_grey_letter_spec in H2 |- *. intros c Hc Hg. apply (H2 c Hc). set_solver.
  - rewrite min_counts_ok_spec in H3 |- *. intros c n Hc.
    destruct (Hmin c n Hc) as (n' & H' & Hle). specialize (H3 c n' H'). lia.
  - rewrite max_counts_ok_spec in H4 |- *. intros c n Hc. by apply H4, Hmax.
  - rewrite yellow_ok_spec in H5 |- *. intros c ps pos Hc Hpos.
    destruct (Hym c ps Hc) as (ps' & H' & Hsub). apply (H5 c ps'); [done|set_solver].
Qed.

Lemma consistent_inv_init (L : nat) (answer : word) :
  consistent_inv L answer (init_knowledge L).
Proof.
  assert (Hd : forall i, i < L -> char_at (replicate L "-"%char) i = "-"%char).
  { intros i Hi. unfold char_at. rewrite nth_lookup, lookup_replicate_2 by done. done. }
  unfold consistent_inv, init_knowledge. simpl.
  split; [apply length_replicate|]. split; [intros i Hi; left; by apply Hd|].
  split; [intros c n H; by rewrite lookup_empty in H|].
  split; [intros c n H; by rewrite lookup_empty in H|].
  split; [intros c H; set_solver|].
  split; [intros c ps H; by rewrite lookup_empty in H|].
  split; [intros i Hi Hne; by rewrite Hd in Hne|].
  intros c n H; by rewrite lookup_empty in H.
Qed.

Lemma consistent_update (L : nat) (answer g : word) (st : knowledge) :
  length answer = L -> lower_word answer -> length g = L ->
  consistent_inv L answer st ->
  consistent_inv L answer (update_knowledge st g (get_pattern L g answer)) /\
  refines st (update_knowledge st g (get_pattern L g answer)).
Proof.
  intros Ha Hlow Hg (I1 & I2 & I3 & I4 & I5 & I6 & I7 & I8).
  pose proof (marks_le_occurrences L g answer Hg Ha) as Mle.
  pose proof (marks_eq_occurrences L g answer Hg Ha) as Meq.
  pose proof (marks_pos L g answer Hg Ha) as Mpos.
  pose proof (get_pattern_exact L g answer Hg Ha) as Mex.
  destruct (update_knowledge_spec st g (get_pattern L g answer))
    as (G1 & G2 & Y1 & Y2 & Y3 & M & X & R).
  set (p := get_pattern L g answer) in *.
  set (st' := update_knowledge st g p) in *.
  assert (Hex : forall i, i < L -> char_at p i = "g"%char -> char_at g i = char_at answer i).
  { intros i Hi Hpi. apply (Mex i Hi) in Hpi. unfold is_exact in Hpi.
    by apply bool_decide_eq_true in Hpi. }
  assert (Hnew : forall i, i < L -> char_at (green_pattern st') i =
            if bool_decide (char_at p i = "g"%char) then char_at g i
            else char_at (green_pattern st) i).
  { intros i Hi. rewrite G2 by lia.
    replace (i <? length g) with true by (symmetry; apply Nat.ltb_lt; lia). done. }
  assert (Hstay : forall i, i < L -> char_at (green_pattern st) i <> "-"%char ->
            char_at (green_pattern st') i = char_at (green_pattern st) i).
  { intros i Hi Hd. rewrite Hnew by done. case_bool_decide as Hp; [|done].
    rewrite Hex by done. destruct (I2 i Hi) as [H|H]; [done|by rewrite H]. }
  assert (Hlowc : forall c, c ∈ answer -> c <> "-"%char).
  { intros c Hc. apply lower_not_dash. by apply (lower_in answer). }
  assert (Hmin_dash : forall c n, letter_min_counts st !! c = Some n -> 0 < n ->
            c <> "-"%char).
  { intros c n Hc Hn. apply Hlowc, occurrences_pos. specialize (I4 c n Hc). lia. }
  assert (Hmin_grow : forall c n, letter_min_counts st !! c = Some n ->
            exists n', letter_min_counts st' !! c = Some n' /\ n <= n').
  { intros c n Hc. rewrite M. case_bool_decide; [|eauto].
    eexists; split; [done|]. rewrite Hc. simpl. lia. }
  assert (Hold8 : forall c, c <> "-"%char ->
            ((exists ps, yellow_misplaced st !! c = Some ps) \/
             exists i, i < L /\ char_at (green_pattern st) i = c) ->
            ((exists ps, yellow_misplaced st' !! c = Some ps) \/
             exists i, i < L /\ char_at (green_pattern st') i = c)).
  { intros c Hc [[ps Hps]|(i & Hi & Hgi)].
    - left. destruct (Y1 c ps Hps) as (ps' & H' & _). eauto.
    - right. exists i. split; [done|]. rewrite Hstay by congruence. done. }
  split.
  - split; [by rewrite G1|]. split; [|split; [|split; [|split; [|split; [|split]]]]].
    + intros i Hi. rewrite Hnew by done. case_bool_decide as Hp;
        [right; by apply Hex|by apply I2].
    + intros c n Hc. rewrite X in Hc. case_bool_decide as Hcg; [|by apply I3].
      injection Hc as <-. destruct Hcg as [_ Hgrey]. by apply Meq.
    + intros c n Hc. rewrite M in Hc. case_bool_decide; [|by apply I4].
      injection Hc as <-. specialize (Mle c).
      destruct (letter_min_counts st !! c) as [n0|] eqn:E0; simpl;
        [specialize (I4 c n0 E0)|]; lia.
    + intros c Hc. apply R in Hc as [Hc|(Hcg & H1 & H2)]; [by apply I5|].
      intros Hca. apply (Mpos c Hcg) in Hca. lia.
    + intros c ps Hc. destruct (Y2 c ps Hc) as [[ps0 H0]|(i & Hi & Hgi & Hri)].
      * destruct (I6 c ps0 H0) as (n & Hn & Hpos).
        destruct (Hmin_grow c n Hn) as (n' & H' & Hle). exists n'. split; [done|lia].
      * rewrite M. rewrite bool_decide_true by (rewrite <- Hgi; apply char_at_in; lia).
        eexists; split; [done|].
        assert (0 < mark_count g p c "y"%char); [|lia].
        apply cnt_pos. exists i. split; [apply elem_of_seq; lia|].
        by rewrite !bool_decide_true.
    + intros i Hi Hd. rewrite Hnew in Hd |- * by done. case_bool_decide as Hp.
      * rewrite M, bool_decide_true by (apply char_at_in; lia). eexists; split; [done|].
        assert (0 < mark_count g p (char_at g i) "g"%char); [|lia].
        apply cnt_pos. exists i. split; [apply elem_of_seq; lia|].
        by rewrite !bool_decide_true.
      * destruct (I7 i Hi Hd) as (n & Hn & Hpos).
        destruct (Hmin_grow _ n Hn) as (n' & H' & Hle). exists n'. split; [done|lia].
    + intros c n Hc Hn. rewrite M in Hc. case_bool_decide as Hcg.
      * injection Hc as <-.
        destruct (decide (0 < mark_count g p c "g"%char)) as [Hmg|Hmg].
        -- apply cnt_pos in Hmg as (i & Hi & Hf). apply elem_of_seq in Hi.
           apply andb_true_iff in Hf as [H1 H2]. apply bool_decide_eq_true in H1, H2.
           right. exists i. split; [lia|]. rewrite Hnew by lia.
           by rewrite bool_decide_true.
        -- destruct (decide (0 < mark_count g p c "y"%char)) as [Hmy|Hmy].
           ++ apply cnt_pos in Hmy as (i & Hi & Hf). apply elem_of_seq in Hi.
              apply andb_true_iff in Hf as [H1 H2]. apply bool_decide_eq_true in H1, H2.
              left. rewrite <- H1. apply Y3; [lia|done].
           ++ destruct (letter_min_counts st !! c) as [n0|] eqn:E0; simpl in Hn; [|lia].
              apply Hold8; [apply (Hmin_dash c n0 E0); lia|].
              apply (I8 c n0 E0). lia.
      * apply Hold8; [apply (Hmin_dash c n Hc Hn)|apply (I8 c n Hc Hn)].
  - split; [|split; [|split; [|split]]].
    + apply Forall2_char_at; [by rewrite G1|]. intros i Hi. rewrite I1 in Hi.
      destruct (decide (char_at (green_pattern st) i = "-"%char)) as [Hd|Hd].
      * rewrite Hnew by done. case_bool_decide as Hp; [|by left]. right.
        split; [done|]. rewrite Hex by done.
        apply lower_not_newline, (lower_in answer); [done|]. apply char_at_in. lia.
      * left. by rewrite Hstay.
    + intros c Hc. apply R. by left.
    + exact Hmin_grow.
    + intros c n Hc. rewrite X. case_bool_decide as Hcg; [|done]. f_equal.
      rewrite (I3 c n Hc). apply Meq. tauto.
    + exact Y1.
Qed.

Lemma consistent_inv_rounds (L : nat) (answer : word) (gs : list word) :
  length answer = L -> lower_word answer -> Forall (fun g => length g = L) gs ->
  forall st0, consistent_inv L answer st0 ->
  consistent_inv L answer
    (fold_left (fun st gr => update_knowledge st (fst gr) (snd gr))
               (consistent_rounds L answer gs) st0).
Proof.
  intros Ha Hlow Hgs. unfold consistent_rounds.
  induction Hgs as [|g gs Hg Hgs IH]; intros st0 H0; simpl; [done|].
  apply IH. by apply consistent_update.
Qed.

Lemma consistent_inv_after (L : nat) (answer : word) (gs : list word) :
  length answer = L -> lower_word answer -> Forall (fun g => length g = L) gs ->
  consistent_inv L answer (knowledge_after L (consistent_rounds L answer gs)).
Proof.
  intros Ha Hlow Hgs. unfold knowledge_after.
  apply consistent_inv_rounds; [done|done|done|]. apply consistent_inv_init.
Qed.

Lemma filter_filter_implied {A} (f g : A -> bool) (l : list A) :
  (forall x, f x = true -> g x = true) ->
  List.filter f (List.filter g l) = List.filter f l.
Proof.
  intros H. induction l as [|x l IH]; [done|]. simpl.
  destruct (g x) eqn:Eg; simpl.
  - by rewrite IH.
  - destruct (f x) eqn:Ef; [|done]. apply H in Ef. congruence.
Qed.

Lemma consistent_session_tail (L : nat) (answer : word) (base : list word) (gs : list word) :
  length answer = L -> lower_word answer -> Forall (fun g => length g = L) gs ->
  forall st0, consistent_inv L answer st0 ->
  snd (fold_left round (consistent_rounds L answer gs) (st0, filter_words st0 base))
  = filter_words (fst (fold_left round (consistent_rounds L answer gs)
                                  (st0, filter_words st0 base))) base.
Proof.
  intros Ha Hlow Hgs. unfold consistent_rounds.
  induction Hgs as [|g gs Hg Hgs IH]; intros st0 H0; simpl; [done|].
  destruct (consistent_update L answer g st0 Ha Hlow Hg H0) as [H1 Hr].
  assert (Hround : round (st0, filter_words st0 base) (g, get_pattern L g answer)
                   = (update_knowledge st0 g (get_pattern L g answer),
                      filter_words (update_knowledge st0 g (get_pattern L g answer)) base)).
  { unfold round. simpl. f_equal. unfold filter_words.
    apply filter_filter_implied. intros w. apply word_ok_refines, Hr. }
  rewrite Hround. apply IH, H1.
Qed.

Lemma lower_word_dec_char (w : word) i :
  lower_word w -> i < length w -> char_at w i <> "-"%char.
Proof. intros H Hi. apply lower_not_dash, (lower_in w); [done|]. by apply char_at_in. Qed.

Lemma forallb_zip_seq (f : nat -> ascii -> bool) (l : list ascii) s :
  forallb (fun '(i, c) => f i c) (zip (seq s (length l)) l) = true <->
  forall i c, l !! i = Some c -> f (s + i) c = true.
Proof.
  revert s. induction l as [|x l IH]; intros s; simpl.
  - split; [intros _ i c H; by rewrite lookup_nil in H|done].
  - rewrite andb_true_iff, IH. split.
    + intros [H0 H] [|i] c Hi; simpl in Hi.
      * injection Hi as <-. by rewrite Nat.add_0_r.
      * replace (s + S i) with (S s + i) by lia. by apply H.
    + intros H. split.
      * rewrite <- (Nat.add_0_r s). by apply H.
      * intros i c Hi. replace (S s + i) with (s + S i) by lia. by apply H.
Qed.

Lemma is_valid_hard_mode_guess_spec (st : knowledge) (guess : word) :
  is_valid_hard_mode_guess st guess = true <->
  (forall i c, green_pattern st !! i = Some c -> c <> "-"%char -> char_at guess i = c) /\
  (forall c ps, yellow_misplaced st !! c = Some ps -> c ∈ guess).
Proof.
  unfold is_valid_hard_mode_guess. rewrite andb_true_iff.
  rewrite (forallb_zip_seq (fun i char => negb (bool_decide (char <> "-"%char)
                                                && bool_decide (char_at guess i <> char)))).
  rewrite forallb_forall. split; intros [HA HB]; split.
  - intros i c Hi Hc. specialize (HA i c Hi). simpl in HA.
    apply negb_true_iff, andb_false_iff in HA as [H|H];
      apply bool_decide_eq_false in H; [contradiction|].
    destruct (decide (char_at guess i = c)) as [|Hn]; [done|by exfalso].
  - intros c ps Hc. apply (bool_decide_eq_true (c ∈ guess)). apply HB.
    apply in_map_iff. exists (c, ps). split; [done|].
    apply list_elem_of_In, elem_of_map_to_list, Hc.
  - intros i c Hi. simpl. apply negb_true_iff, andb_false_iff.
    destruct (decide (c = "-"%char)) as [->|Hd].
    + left. apply bool_decide_eq_false. tauto.
    + right. apply bool_decide_eq_false. intros Hn. apply Hn. by apply HA.
  - intros x Hx. apply in_map_iff in Hx as [[c ps] [<- Hin]]. simpl.
    apply bool_decide_eq_true. apply (HB c ps).
    apply elem_of_map_to_list, list_elem_of_In, Hin.
Qed.

(* ------------------------------------------------------------------ *)
(** * The claims *)

(** C7: for a guess and an answer of the same length [L], the encoder
    returns a pattern of length exactly [L] without raising; its 'g', 'y'
    and '-' marks add up to [L], and the number of 'g' marks is the number
    of positions where the two words agree.  (This holds for every pair of
    equal-length words, with or without repeated letters.) *)
Theorem get_pattern_total_and_counts (L : nat) (guess answer : word) :
  length guess = L -> length answer = L ->
  exists p, get_pattern_checked L guess answer = Some p /\ length p = L /\
    occurrences "g"%char p + occurrences "y"%char p + occurrences "-"%char p = L /\
    occurrences "g"%char p = cnt (is_exact guess answer) (seq 0 L).
Proof.
  intros Hg Ha. exists (get_pattern L guess answer).
  unfold get_pattern_checked. rewrite Hg, Ha, Nat.leb_refl. simpl.
  split; [done|]. split; [by apply get_pattern_length|]. split.
  - rewrite occurrences_marks by (by apply get_pattern_Forall).
    by apply get_pattern_length.
  - rewrite occurrences_cnt, get_pattern_length by done. apply cnt_ext.
    intros i Hi. apply elem_of_seq in Hi.
    apply eq_bool_prop_intro. rewrite !Is_true_true, bool_decide_eq_true.
    apply get_pattern_exact; [done|done|lia].
Qed.

Lemma get_pattern_total_and_counts_witness :
  length (list_ascii_of_string "speed") = 5 /\
  length (list_ascii_of_string "erase") = 5 /\
  exists p, get_pattern_checked 5 (list_ascii_of_string "speed")
              (list_ascii_of_string "erase") = Some p /\ length p = 5 /\
    occurrences "g"%char p + occurrences "y"%char p + occurrences "-"%char p = 5 /\
    occurrences "g"%char p
    = cnt (is_exact (list_ascii_of_string "speed") (list_ascii_of_string "erase"))
          (seq 0 5).
Proof.
  split; [reflexivity|]. split; [reflexivity|].
  apply get_pattern_total_and_counts; reflexivity.
Defined.

(** C10: for a guess and an answer of the same length, [check_guess] of
    sim.py gives, position by position, the pattern of
    [WordleSolver._get_pattern] with [word_length] that length, once 'g',
    'y' and '-' are renamed to the green, yellow and white squares. *)
Theorem check_guess_matches_get_pattern (guess answer : word) :
  length guess = length answer ->
  check_guess guess answer = map to_square (get_pattern (length answer) guess answer).
Proof.
  intros Hlen. unfold check_guess, get_pattern. cbv zeta.
  remember (length answer) as L eqn:HL.
  destruct (pass1 L guess answer) as [p1 u1] eqn:E1.
  destruct (fold_left (cg_pass1_step guess) (seq 0 L)
              (replicate L EmptyString, map Some answer)) as [r1 sl1] eqn:E2.
  destruct (fold_left (pass2_step L guess answer) (seq 0 L) (p1, u1))
    as [p2 u2] eqn:E3.
  destruct (fold_left (cg_pass2_step guess) (seq 0 L) (r1, sl1))
    as [r2 sl2] eqn:E4.
  simpl.
  destruct (sim_rel_fold L guess answer Hlen (eq_sym HL) L (le_n L)
              p2 u2 r2 sl2 r1 sl1 p1 u1 E1 E2 E3 E4) as (Hlr & Hri & _).
  assert (Hinv : pass2_inv L guess answer L p2 u2).
  { apply (pass2_inv_fold L guess answer Hlen (eq_sym HL) L (le_n L)).
    by rewrite E1. }
  destruct Hinv as (Hlp & _ & Hdom & _).
  apply (nth_ext _ _ sq_white (to_square " "%char)).
  { by rewrite !length_map, Hlr, Hlp. }
  intros n Hn. rewrite length_map, Hlr in Hn.
  rewrite (nth_indep _ sq_white
             ((fun r => if decide (r = EmptyString) then sq_white else r) EmptyString))
    by (rewrite length_map; lia).
  rewrite (map_nth (fun r => if decide (r = EmptyString) then sq_white else r) r2).
  rewrite map_nth, Hri by done. unfold char_at.
  destruct (Hdom n Hn) as [_ Hv]. unfold char_at in Hv.
  destruct Hv as [-> | [-> | ->]]; reflexivity.
Qed.

Lemma check_guess_matches_get_pattern_witness :
  length (list_ascii_of_string "speed") = length (list_ascii_of_string "erase") /\
  check_guess (list_ascii_of_string "speed") (list_ascii_of_string "erase")
  = map to_square (get_pattern (length (list_ascii_of_string "erase"))
                     (list_ascii_of_string "speed") (list_ascii_of_string "erase")).
Proof.
  split; [reflexivity|]. apply check_guess_matches_get_pattern. reflexivity.
Defined.

(** C9: both strategies return [None] exactly when the candidate list is
    empty; on a non-empty list they return [Some] word. *)
Theorem select_none_iff_empty (word_length : nat) (all_words possible_words : list word) :
  (find_best_guess_frequency possible_words = None <-> possible_words = []) /\
  (find_best_guess_minimax word_length all_words possible_words = None
   <-> possible_words = []).
Proof.
  destruct possible_words as [|w [|w' ws]]; simpl; split; split; congruence.
Qed.

(** C8: on a non-empty candidate list the frequency strategy returns the
    first candidate (in list order) whose score is maximal, the score of a
    word being the sum, over its distinct letters, of the number of
    candidates containing that letter. *)
Theorem frequency_picks_first_best (possible_words : list word) :
  possible_words <> [] ->
  exists pre best post,
    possible_words = pre ++ best :: post /\
    find_best_guess_frequency possible_words = Some best /\
    (forall w, w ∈ possible_words ->
       spec_score possible_words w <= spec_score possible_words best) /\
    (forall w, w ∈ pre ->
       spec_score possible_words w < spec_score possible_words best).
Proof.
  intros Hne. destruct possible_words as [|w1 [|w2 ws]] eqn:EP; [done| |].
  - exists [], w1, []. split; [done|]. split; [done|]. split.
    + intros w Hw. apply list_elem_of_singleton in Hw as ->. lia.
    + intros w Hw. inversion Hw.
  - rewrite <- EP. simpl.
    set (freq := letter_frequency possible_words).
    destruct (frequency_scan freq possible_words [] (-1)%Z) as (H1 & H2 & _).
    destruct H2 as [Heq|(pre & post & Hl & Hs & _ & Hpre)].
    + exfalso. assert (Hw1 : w1 ∈ possible_words) by (rewrite EP; constructor).
      specialize (H1 w1 Hw1). rewrite Heq in H1. simpl in H1. lia.
    + exists pre, (fst (fold_left (frequency_step freq) possible_words ([], (-1)%Z))), post.
      split; [done|]. split; [unfold freq; rewrite EP; reflexivity|].
      unfold freq in *. rewrite !score_letter_frequency in Hs. split.
      * intros w Hw. specialize (H1 w Hw). rewrite score_letter_frequency in H1. lia.
      * intros w Hw. specialize (Hpre w Hw). rewrite score_letter_frequency in Hpre. lia.
Qed.

Lemma frequency_picks_first_best_witness :
  [list_ascii_of_string "ab"; list_ascii_of_string "bc"; list_ascii_of_string "cd"] <> [] /\
  exists pre best post,
    [list_ascii_of_string "ab"; list_ascii_of_string "bc"; list_ascii_of_string "cd"]
      = pre ++ best :: post /\
    find_best_guess_frequency
      [list_ascii_of_string "ab"; list_ascii_of_string "bc"; list_ascii_of_string "cd"]
      = Some best /\
    (forall w, w ∈ [list_ascii_of_string "ab"; list_ascii_of_string "bc";
                    list_ascii_of_string "cd"] ->
       spec_score [list_ascii_of_string "ab"; list_ascii_of_string "bc";
                   list_ascii_of_string "cd"] w
       <= spec_score [list_ascii_of_string "ab"; list_ascii_of_string "bc";
                      list_ascii_of_string "cd"] best) /\
    (forall w, w ∈ pre ->
       spec_score [list_ascii_of_string "ab"; list_ascii_of_string "bc";
                   list_ascii_of_string "cd"] w
       < spec_score [list_ascii_of_string "ab"; list_ascii_of_string "bc";
                     list_ascii_of_string "cd"] best).
Proof.
  split; [discriminate|]. apply frequency_picks_first_best. discriminate.
Defined.

(** C5: on a non-empty list of length-[L] candidates (all taken from the
    dictionary), the minimax strategy returns a length-[L] word of the
    evaluated pool (the dictionary when more than two candidates remain,
    the candidates otherwise) whose largest feedback bucket over the
    candidates is no larger than that of any length-[L] pool word; and when
    some pool word with that same worst case is a candidate, the returned
    word is a candidate. *)
Theorem minimax_minimizes_worst_case (word_length : nat)
    (all_words possible_words : list word) :
  possible_words <> [] ->
  Forall (fun w => length w = word_length) possible_words ->
  (forall w, w ∈ possible_words -> w ∈ all_words) ->
  let pool := if 2 <? length possible_words then all_words else possible_words in
  exists best,
    find_best_guess_minimax word_length all_words possible_words = Some best /\
    best ∈ pool /\ length best = word_length /\
    (forall g, g ∈ pool -> length g = word_length ->
       worst_case_bucket word_length possible_words best
       <= worst_case_bucket word_length possible_words g) /\
    ((exists g, g ∈ pool /\ length g = word_length /\
        worst_case_bucket word_length possible_words g
        = worst_case_bucket word_length possible_words best /\
        g ∈ possible_words) -> best ∈ possible_words).
Proof.
  intros Hne HL Hsub pool.
  assert (Hpool : pool = if 2 <? length possible_words then all_words
                         else possible_words) by reflexivity.
  clearbody pool.
  destruct possible_words as [|w1 [|w2 ws]] eqn:EP; [done| |].
  - exists w1. subst pool. simpl.
    assert (Hw1 : length w1 = word_length) by (by inversion HL).
    split; [done|]. split; [constructor|]. split; [done|]. split.
    + intros g Hg _. apply list_elem_of_singleton in Hg as ->. lia.
    + intros _. constructor.
  - rewrite <- EP in *.
    assert (Hw1 : w1 ∈ pool /\ length w1 = word_length).
    { assert (Hin : w1 ∈ possible_words) by (rewrite EP; constructor).
      split.
      - rewrite Hpool. destruct (2 <? length possible_words); [by apply Hsub|done].
      - rewrite Forall_forall in HL. by apply HL. }
    pose proof (minimax_inv_fold word_length possible_words pool [] ([], None))
      as Hinv.
    simpl in Hinv.
    destruct (fold_left (minimax_step word_length possible_words) pool ([], None))
      as [best mmr] eqn:Efold.
    exists best. split.
    { rewrite Hpool, EP in Efold. rewrite EP. simpl. simpl in Efold. by rewrite Efold. }
    assert (H0 : minimax_inv word_length possible_words [] ([], None))
      by (intros g Hg; inversion Hg).
    specialize (Hinv H0). unfold minimax_inv in Hinv. simpl in Hinv.
    destruct mmr as [m|].
    + destruct Hinv as (Hb & Hlb & Hwb & Hmin & Htie). subst m.
      split; [done|]. split; [done|]. split; [done|]. done.
    + exfalso. destruct Hw1 as [Hw1 Hl1]. by apply (Hinv w1).
Qed.

Lemma minimax_minimizes_worst_case_witness :
  let P := [list_ascii_of_string "ab"; list_ascii_of_string "ba";
            list_ascii_of_string "cd"] in
  let all := list_ascii_of_string "ca" :: P in
  P <> [] /\ Forall (fun w => length w = 2) P /\
  (forall w, w ∈ P -> w ∈ all) /\
  let pool := if 2 <? length P then all else P in
  exists best,
    find_best_guess_minimax 2 all P = Some best /\
    best ∈ pool /\ length best = 2 /\
    (forall g, g ∈ pool -> length g = 2 ->
       worst_case_bucket 2 P best <= worst_case_bucket 2 P g) /\
    ((exists g, g ∈ pool /\ length g = 2 /\
        worst_case_bucket 2 P g = worst_case_bucket 2 P best /\
        g ∈ P) -> best ∈ P).
Proof.
  intros P all.
  assert (H1 : P <> []) by discriminate.
  assert (H2 : Forall (fun w => length w = 2) P) by (repeat constructor).
  assert (H3 : forall w, w ∈ P -> w ∈ all) by (intros w Hw; by apply elem_of_cons; right).
  split; [exact H1|]. split; [exact H2|]. split; [exact H3|].
  exact (minimax_minimizes_worst_case 2 all P H1 H2 H3).
Defined.

(** C6: for a state whose green pattern holds lowercase letters and '-', a
    word of the pattern's length (without a newline) is kept by
    [_filter_words] iff it is a candidate, it has the green letter at every
    set green position, none of its letters is grey, it has at least the
    recorded minimum count and exactly the recorded maximum count of every
    letter that has one, and it has no yellow letter at a position recorded
    for that letter. *)
Theorem filter_words_spec (st : knowledge) (possible_words : list word) (w : word) :
  Forall (fun c => c = "-"%char \/ lower c) (green_pattern st) ->
  length w = length (green_pattern st) -> "010"%char ∉ w ->
  w ∈ filter_words st possible_words <->
  w ∈ possible_words /\
  (forall i c, green_pattern st !! i = Some c -> c <> "-"%char -> w !! i = Some c) /\
  (forall c, c ∈ w -> c ∉ greys st) /\
  (forall c n, letter_min_counts st !! c = Some n -> n <= occurrences c w) /\
  (forall c n, letter_max_counts st !! c = Some n -> occurrences c w = n) /\
  (forall c ps pos, yellow_misplaced st !! c = Some ps -> pos ∈ ps ->
     w !! pos <> Some c).
Proof.
  intros _ Hl Hnl. unfold filter_words.
  rewrite !list_elem_of_In, filter_In, <- list_elem_of_In, word_ok_spec by done.
  done.
Qed.

Lemma filter_words_spec_witness :
  let st := update_knowledge (init_knowledge 3) (list_ascii_of_string "abc")
              (list_ascii_of_string "g-y") in
  let w := list_ascii_of_string "acd" in
  Forall (fun c => c = "-"%char \/ lower c) (green_pattern st) /\
  length w = length (green_pattern st) /\ ("010"%char ∉ w) /\
  (w ∈ filter_words st [w] <->
   w ∈ [w] /\
   (forall i c, green_pattern st !! i = Some c -> c <> "-"%char -> w !! i = Some c) /\
   (forall c, c ∈ w -> c ∉ greys st) /\
   (forall c n, letter_min_counts st !! c = Some n -> n <= occurrences c w) /\
   (forall c n, letter_max_counts st !! c = Some n -> occurrences c w = n) /\
   (forall c ps pos, yellow_misplaced st !! c = Some ps -> pos ∈ ps ->
      w !! pos <> Some c)).
Proof.
  intros st w.
  assert (H1 : Forall (fun c => c = "-"%char \/ lower c) (green_pattern st)).
  { vm_compute. repeat constructor; first [left; reflexivity | right; cbv; lia]. }
  assert (H2 : length w = length (green_pattern st)) by (vm_compute; reflexivity).
  assert (H3 : "010"%char ∉ w) by (apply (bool_decide_unpack _); vm_compute; exact I).
  split; [exact H1|]. split; [exact H2|]. split; [exact H3|].
  exact (filter_words_spec st [w] w H1 H2 H3).
Defined.

(** Tactic for the side conditions of the witnesses below: a concrete word
    is made of lowercase letters. *)
Ltac solve_lower_word :=
  unfold lower_word; simpl;
  repeat (constructor; [unfold lower; cbv; lia|]); constructor.

(** C1, counterexample: with feedback that no single answer produces
    ("ab" / "y-" then "ca" / "--"), the letter 'a' ends up both grey and with
    minimum count 1; [_update_knowledge] adds a letter with no 'g'/'y' mark
    to the greys whatever its recorded minimum. *)
Lemma update_knowledge_grey_with_min :
  let st := update_knowledge
              (update_knowledge (init_knowledge 2) (list_ascii_of_string "ab")
                 (list_ascii_of_string "y-"))
              (list_ascii_of_string "ca") (list_ascii_of_string "--") in
  "a"%char ∈ greys st /\ letter_min_counts st !! "a"%char = Some 1.
Proof.
  split; [apply (bool_decide_unpack _); vm_compute; exact I|vm_compute; reflexivity].
Qed.

(** C1 (amended): when every feedback string is the pattern of the guess
    against one fixed answer of lowercase letters, no letter is both grey
    and recorded with a positive minimum count, after any number of
    updates. *)
Theorem consistent_greys_have_no_min (L : nat) (answer : word) (guesses : list word) :
  length answer = L -> lower_word answer -> Forall (fun g => length g = L) guesses ->
  forall c n,
    c ∈ greys (knowledge_after L (consistent_rounds L answer guesses)) ->
    letter_min_counts (knowledge_after L (consistent_rounds L answer guesses)) !! c
      = Some n ->
    n = 0.
Proof.
  intros Ha Hlow Hgs c n Hc Hn.
  destruct (consistent_inv_after L answer guesses Ha Hlow Hgs)
    as (_ & _ & _ & I4 & I5 & _).
  specialize (I4 c n Hn). specialize (I5 c Hc).
  destruct n as [|n]; [done|]. exfalso. apply I5, occurrences_pos. lia.
Qed.

Lemma consistent_greys_have_no_min_witness :
  let answer := list_ascii_of_string "cat" in
  let guesses := [list_ascii_of_string "dog"] in
  length answer = 3 /\ lower_word answer /\ Forall (fun g => length g = 3) guesses /\
  "d"%char ∈ greys (knowledge_after 3 (consistent_rounds 3 answer guesses)) /\
  letter_min_counts (knowledge_after 3 (consistent_rounds 3 answer guesses)) !! "d"%char
    = Some 0 /\
  0 = 0.
Proof.
  intros answer guesses.
  assert (H1 : length answer = 3) by reflexivity.
  assert (H2 : lower_word answer) by solve_lower_word.
  assert (H3 : Forall (fun g => length g = 3) guesses) by (repeat constructor).
  assert (H4 : "d"%char ∈ greys (knowledge_after 3 (consistent_rounds 3 answer guesses)))
    by (apply (bool_decide_unpack _); vm_compute; exact I).
  assert (H5 : letter_min_counts (knowledge_after 3 (consistent_rounds 3 answer guesses))
                 !! "d"%char = Some 0) by (vm_compute; reflexivity).
  do 5 (split; [assumption|]).
  exact (consistent_greys_have_no_min 3 answer guesses H1 H2 H3 "d"%char 0 H4 H5).
Defined.

(** C2, counterexample: with the rounds "abc" / "gg-" then "bad" / "gg-",
    the session's candidate list (filtered round after round) is empty,
    while the final constraints applied to the length-filtered dictionary
    keep "bae". *)
Lemma session_incremental_differs :
  let s := session 3 [list_ascii_of_string "bae"]
             [(list_ascii_of_string "abc", list_ascii_of_string "gg-");
              (list_ascii_of_string "bad", list_ascii_of_string "gg-")] in
  snd s = [] /\
  filter_words (fst s)
    (List.filter (fun w => length w =? 3) [list_ascii_of_string "bae"])
  = [list_ascii_of_string "bae"].
Proof. split; vm_compute; reflexivity. Qed.

(** C2 (amended): when every feedback string is the pattern of the guess
    against one fixed answer of lowercase letters, after one round or more
    the candidate list obtained by filtering the previous round's list
    equals the current constraints applied to the length-filtered
    dictionary. *)
Theorem consistent_session_matches_recompute (L : nat) (all_words : list word)
    (answer : word) (guesses : list word) :
  length answer = L -> lower_word answer -> Forall (fun g => length g = L) guesses ->
  guesses <> [] ->
  snd (session L all_words (consistent_rounds L answer guesses))
  = filter_words (fst (session L all_words (consistent_rounds L answer guesses)))
                 (List.filter (fun w => length w =? L) all_words).
Proof.
  intros Ha Hlow Hgs Hne. destruct guesses as [|g gs]; [done|].
  rewrite Forall_cons in Hgs. destruct Hgs as [Hg Hgs].
  unfold session, start.
  change (consistent_rounds L answer (g :: gs))
    with ((g, get_pattern L g answer) :: consistent_rounds L answer gs).
  cbn [fold_left].
  set (base := List.filter (fun w => length w =? L) all_words).
  assert (Hround : round (init_knowledge L, base) (g, get_pattern L g answer)
                   = (update_knowledge (init_knowledge L) g (get_pattern L g answer),
                      filter_words (update_knowledge (init_knowledge L) g
                                      (get_pattern L g answer)) base))
    by reflexivity.
  rewrite Hround. apply consistent_session_tail; [done|done|done|].
  apply consistent_update; [done|done|done|]. apply consistent_inv_init.
Qed.

Lemma consistent_session_matches_recompute_witness :
  let answer := list_ascii_of_string "cat" in
  let guesses := [list_ascii_of_string "dog"; list_ascii_of_string "act"] in
  let all_words := [list_ascii_of_string "cat"; list_ascii_of_string "act";
                    list_ascii_of_string "tic"; list_ascii_of_string "cats"] in
  length answer = 3 /\ lower_word answer /\ Forall (fun g => length g = 3) guesses /\
  guesses <> [] /\
  snd (session 3 all_words (consistent_rounds 3 answer guesses))
  = filter_words (fst (session 3 all_words (consistent_rounds 3 answer guesses)))
                 (List.filter (fun w => length w =? 3) all_words).
Proof.
  intros answer guesses all_words.
  assert (H1 : length answer = 3) by reflexivity.
  assert (H2 : lower_word answer) by solve_lower_word.
  assert (H3 : Forall (fun g => length g = 3) guesses) by (repeat constructor).
  assert (H4 : guesses <> []) by discriminate.
  do 4 (split; [assumption|]).
  exact (consistent_session_matches_recompute 3 all_words answer guesses H1 H2 H3 H4).
Defined.

(** C3, counterexample: after "abc" / "gg-" the filter drops "bae"; after
    the further update "bad" / "gg-" the green pattern is overwritten and
    the filter keeps "bae" again. *)
Lemma update_can_relax_filter :
  let st1 := update_knowledge (init_knowledge 3) (list_ascii_of_string "abc")
               (list_ascii_of_string "gg-") in
  let st2 := update_knowledge st1 (list_ascii_of_string "bad")
               (list_ascii_of_string "gg-") in
  filter_words st1 [list_ascii_of_string "bae"] = [] /\
  filter_words st2 [list_ascii_of_string "bae"] = [list_ascii_of_string "bae"].
Proof. split; vm_compute; reflexivity. Qed.

(** C3 (amended): when every feedback string so far, and the new one, is
    the pattern of the guess against one fixed answer of lowercase letters,
    the update only shrinks the filter's output on any word list. *)
Theorem consistent_update_shrinks_candidates (L : nat) (answer : word)
    (guesses : list word) (g : word) (possible_words : list word) :
  length answer = L -> lower_word answer -> Forall (fun g => length g = L) guesses ->
  length g = L ->
  forall w,
    w ∈ filter_words (update_knowledge (knowledge_after L (consistent_rounds L answer guesses))
                        g (get_pattern L g answer)) possible_words ->
    w ∈ filter_words (knowledge_after L (consistent_rounds L answer guesses))
          possible_words.
Proof.
  intros Ha Hlow Hgs Hg w Hw.
  pose proof (consistent_inv_after L answer guesses Ha Hlow Hgs) as HI.
  destruct (consistent_update L answer g _ Ha Hlow Hg HI) as [_ Hr].
  unfold filter_words in *. rewrite list_elem_of_In, filter_In in Hw |- *.
  destruct Hw as [Hin Hok]. split; [done|]. by apply (word_ok_refines _ _ w Hr).
Qed.

Lemma consistent_update_shrinks_candidates_witness :
  let answer := list_ascii_of_string "cat" in
  let guesses := [list_ascii_of_string "dog"] in
  let g := list_ascii_of_string "act" in
  let P := [list_ascii_of_string "cat"; list_ascii_of_string "tac"] in
  length answer = 3 /\ lower_word answer /\ Forall (fun g => length g = 3) guesses /\
  length g = 3 /\
  list_ascii_of_string "cat"
    ∈ filter_words (update_knowledge (knowledge_after 3 (consistent_rounds 3 answer guesses))
                      g (get_pattern 3 g answer)) P /\
  list_ascii_of_string "cat"
    ∈ filter_words (knowledge_after 3 (consistent_rounds 3 answer guesses)) P.
Proof.
  intros answer guesses g P.
  assert (H1 : length answer = 3) by reflexivity.
  assert (H2 : lower_word answer) by solve_lower_word.
  assert (H3 : Forall (fun g => length g = 3) guesses) by (repeat constructor).
  assert (H4 : length g = 3) by reflexivity.
  assert (H5 : list_ascii_of_string "cat"
                 ∈ filter_words (update_knowledge
                                   (knowledge_after 3 (consistent_rounds 3 answer guesses))
                                   g (get_pattern 3 g answer)) P)
    by (apply (bool_decide_unpack _); vm_compute; exact I).
  do 5 (split; [assumption|]).
  exact (consistent_update_shrinks_candidates 3 answer guesses g P H1 H2 H3 H4 _ H5).
Defined.

(** C4, counterexample: after "abc" / "g--" then "dxy" / "g--" the green
    'a' is overwritten by 'd'; 'a' keeps minimum count 1 but is no yellow
    letter, and the hard-mode check accepts "dzz", which lacks 'a'. *)
Lemma hard_mode_ignores_positive_min :
  let st := update_knowledge
              (update_knowledge (init_knowledge 3) (list_ascii_of_string "abc")
                 (list_ascii_of_string "g--"))
              (list_ascii_of_string "dxy") (list_ascii_of_string "g--") in
  is_valid_hard_mode_guess st (list_ascii_of_string "dzz") = true /\
  letter_min_counts st !! "a"%char = Some 1 /\
  "a"%char ∉ list_ascii_of_string "dzz".
Proof.
  split; [vm_compute; reflexivity|]. split; [vm_compute; reflexivity|].
  apply (bool_decide_unpack _); vm_compute; exact I.
Qed.

(** C4 (amended): when every feedback string is the pattern of the guess
    against one fixed answer of lowercase letters, a length-[L] guess passes
    the hard-mode check (so it fails exactly when one of the two rules is
    broken) iff it has every known green letter at its position and
    contains every letter with a positive minimum count; and the check
    never reads the maximum counts. *)
Theorem consistent_hard_mode_rule (L : nat) (answer : word) (guesses : list word)
    (guess : word) :
  length answer = L -> lower_word answer -> Forall (fun g => length g = L) guesses ->
  length guess = L ->
  let st := knowledge_after L (consistent_rounds L answer guesses) in
  (is_valid_hard_mode_guess st guess = true <->
   (forall i c, green_pattern st !! i = Some c -> c <> "-"%char -> guess !! i = Some c) /\
   (forall c n, letter_min_counts st !! c = Some n -> 0 < n -> c ∈ guess)) /\
  (forall maxs,
     is_valid_hard_mode_guess
       {| green_pattern := green_pattern st; yellow_misplaced := yellow_misplaced st;
          letter_min_counts := letter_min_counts st; letter_max_counts := maxs;
          greys := greys st |} guess
     = is_valid_hard_mode_guess st guess).
Proof.
  intros Ha Hlow Hgs Hg st.
  assert (HI : consistent_inv L answer st) by (by apply consistent_inv_after).
  destruct HI as (I1 & I2 & I3 & I4 & I5 & I6 & I7 & I8).
  split; [|intros maxs; reflexivity].
  rewrite is_valid_hard_mode_guess_spec. split.
  - intros [HA HB]. split.
    + intros i c Hi Hc. rewrite <- (HA i c Hi Hc). apply lookup_char_at.
      apply lookup_lt_Some in Hi. lia.
    + intros c n Hc Hn. destruct (I8 c n Hc Hn) as [[ps Hps]|(i & Hi & Hgi)];
        [by apply (HB c ps)|].
      assert (Hcd : c <> "-"%char).
      { apply lower_not_dash, (lower_in answer); [done|]. apply occurrences_pos.
        specialize (I4 c n Hc). lia. }
      assert (Hgc : green_pattern st !! i = Some c)
        by (rewrite <- Hgi; apply lookup_char_at; lia).
      rewrite <- (HA i c Hgc Hcd). apply char_at_in. lia.
  - intros [HA HB]. split.
    + intros i c Hi Hc. apply char_at_lookup. by apply HA.
    + intros c ps Hc. destruct (I6 c ps Hc) as (n & Hn & Hpos). by apply (HB c n).
Qed.

Lemma consistent_hard_mode_rule_witness :
  let answer := list_ascii_of_string "cat" in
  let guesses := [list_ascii_of_string "dog"; list_ascii_of_string "act"] in
  let guess := list_ascii_of_string "cut" in
  length answer = 3 /\ lower_word answer /\ Forall (fun g => length g = 3) guesses /\
  length guess = 3 /\
  let st := knowledge_after 3 (consistent_rounds 3 answer guesses) in
  (is_valid_hard_mode_guess st guess = true <->
   (forall i c, green_pattern st !! i = Some c -> c <> "-"%char -> guess !! i = Some c) /\
   (forall c n, letter_min_counts st !! c = Some n -> 0 < n -> c ∈ guess)) /\
  (forall maxs,
     is_valid_hard_mode_guess
       {| green_pattern := green_pattern st; yellow_misplaced := yellow_misplaced st;
          letter_min_counts := letter_min_counts st; letter_max_counts := maxs;
          greys := greys st |} guess
     = is_valid_hard_mode_guess st guess).
Proof.
  intros answer guesses guess.
  assert (H1 : length answer = 3) by reflexivity.
  assert (H2 : lower_word answer) by solve_lower_word.
  assert (H3 : Forall (fun g => length g = 3) guesses) by (repeat constructor).
  assert (H4 : length guess = 3) by reflexivity.
  do 4 (split; [assumption|]).
  exact (consistent_hard_mode_rule 3 answer guesses guess H1 H2 H3 H4).
Defined.

(* ------------------------------------------------------------------ *)
(** ** More on the pattern encoder *)

Lemma char_at_replicate (n i : nat) (x : ascii) :
  i < n -> char_at (replicate n x) i = x.
Proof. intros Hi. unfold char_at. by rewrite nth_lookup, lookup_replicate_2. Qed.

Lemma word_eq_char_at (w w' : word) :
  length w = length w' -> (forall i, i < length w -> char_at w i = char_at w' i) ->
  w = w'.
Proof. intros Hl H. apply (nth_ext _ _ " "%char " "%char Hl). exact H. Qed.

Lemma get_pattern_all_green (L : nat) (guess answer : word) :
  length guess = L -> length answer = L ->
  get_pattern L guess answer = replicate L "g"%char <-> guess = answer.
Proof.
  intros Hg Ha. pose proof (get_pattern_exact L guess answer Hg Ha) as Hex. split.
  - intros Hp. apply word_eq_char_at; [congruence|]. intros i Hi. rewrite Hg in Hi.
    specialize (Hex i Hi). rewrite Hp, char_at_replicate in Hex by done.
    unfold is_exact in Hex. apply (bool_decide_eq_true_1 (char_at guess i = char_at answer i)).
    by apply Hex.
  - intros <-. apply word_eq_char_at.
    + by rewrite get_pattern_length, length_replicate.
    + intros i Hi. rewrite get_pattern_length in Hi by done.
      rewrite char_at_replicate by done. apply Hex; [done|].
      unfold is_exact. by rewrite bool_decide_true.
Qed.

Lemma cnt_split3 (f f1 f2 f3 : nat -> bool) (l : list nat) :
  (forall x, x ∈ l -> (if f x then 1 else 0)
     = (if f1 x then 1 else 0) + (if f2 x then 1 else 0) + (if f3 x then 1 else 0)) ->
  cnt f1 l + cnt f2 l + cnt f3 l = cnt f l.
Proof.
  unfold cnt. induction l as [|x l IH]; intros H; simpl; [done|].
  assert (Hx := H x ltac:(constructor)).
  assert (IH' := IH (fun y Hy => H y ltac:(by constructor))).
  destruct (f x), (f1 x), (f2 x), (f3 x); simpl in *; lia.
Qed.

(** Every letter of the guess gets exactly one of the three marks. *)
Lemma mark_count_total (g r : word) (c : ascii) :
  (forall i, i < length g ->
     char_at r i = "g"%char \/ char_at r i = "y"%char \/ char_at r i = "-"%char) ->
  mark_count g r c "g"%char + mark_count g r c "y"%char + mark_count g r c "-"%char
  = occurrences c g.
Proof.
  intros Hv. rewrite occurrences_cnt. unfold mark_count. apply cnt_split3.
  intros i Hi. apply elem_of_seq in Hi. destruct (Hv i ltac:(lia)) as [H|[H|H]];
    rewrite H; destruct (decide (char_at g i = c));
    repeat first [rewrite bool_decide_true by done | rewrite bool_decide_false by done];
    simpl; done.
Qed.

Lemma get_pattern_marks_min (L : nat) (guess answer : word) (c : ascii) :
  length guess = L -> length answer = L ->
  mark_count guess (get_pattern L guess answer) c "g"%char
  + mark_count guess (get_pattern L guess answer) c "y"%char
  = Nat.min (occurrences c guess) (occurrences c answer).
Proof.
  intros Hg Ha.
  pose proof (marks_le_occurrences L guess answer Hg Ha c) as Hle.
  pose proof (marks_eq_occurrences L guess answer Hg Ha c) as Heq.
  assert (Htot := mark_count_total guess (get_pattern L guess answer) c
                    (fun i Hi => get_pattern_values L guess answer Hg Ha i ltac:(lia))).
  destruct (decide (0 < mark_count guess (get_pattern L guess answer) c "-"%char)) as [H|H].
  - specialize (Heq H). lia.
  - lia.
Qed.

Lemma get_pattern_yellow_grey (L : nat) (guess answer : word) (i : nat) :
  length guess = L -> length answer = L -> i < L ->
  (char_at (get_pattern L guess answer) i = "y"%char ->
   char_at guess i <> char_at answer i /\ char_at guess i ∈ answer) /\
  (char_at guess i ∉ answer -> char_at (get_pattern L guess answer) i = "-"%char).
Proof.
  intros Hg Ha Hi.
  pose proof (get_pattern_exact L guess answer Hg Ha i Hi) as Hex.
  assert (Hy : char_at (get_pattern L guess answer) i = "y"%char ->
               char_at guess i <> char_at answer i /\ char_at guess i ∈ answer).
  { intros Hpy. split.
    - intros Heq. assert (is_exact guess answer i = true)
        by (by apply (bool_decide_eq_true_2 (char_at guess i = char_at answer i))).
      apply Hex in H. congruence.
    - apply (marks_pos L guess answer Hg Ha); [apply char_at_in; lia|].
      assert (0 < mark_count guess (get_pattern L guess answer) (char_at guess i) "y"%char);
        [|lia].
      apply cnt_pos. exists i. split; [apply elem_of_seq; lia|].
      by rewrite !bool_decide_true. }
  split; [exact Hy|]. intros Hn.
  destruct (get_pattern_values L guess answer Hg Ha i Hi) as [H|[H|H]]; [|exfalso; apply Hn; by apply Hy|done].
  apply Hex in H. unfold is_exact in H.
  apply (bool_decide_eq_true_1 (char_at guess i = char_at answer i)) in H.
  exfalso. apply Hn. rewrite H. apply char_at_in. lia.
Qed.

(* ------------------------------------------------------------------ *)
(** ** sim.py's feedback and its win test *)

Lemma check_guess_pattern (guess answer : word) :
  length guess = length answer ->
  check_guess guess answer = map to_square (get_pattern (length answer) guess answer).
Proof.
  intros Hlen. unfold check_guess, get_pattern. cbv zeta.
  remember (length answer) as L eqn:HL.
  destruct (pass1 L guess answer) as [p1 u1] eqn:E1.
  destruct (fold_left (cg_pass1_step guess) (seq 0 L)
              (replicate L EmptyString, map Some answer)) as [r1 sl1] eqn:E2.
  destruct (fold_left (pass2_step L guess answer) (seq 0 L) (p1, u1))
    as [p2 u2] eqn:E3.
  destruct (fold_left (cg_pass2_step guess) (seq 0 L) (r1, sl1))
    as [r2 sl2] eqn:E4.
  simpl.
  destruct (sim_rel_fold L guess answer Hlen (eq_sym HL) L (le_n L)
              p2 u2 r2 sl2 r1 sl1 p1 u1 E1 E2 E3 E4) as (Hlr & Hri & _).
  assert (Hinv : pass2_inv L guess answer L p2 u2).
  { apply (pass2_inv_fold L guess answer Hlen (eq_sym HL) L (le_n L)).
    by rewrite E1. }
  destruct Hinv as (Hlp & _ & Hdom & _).
  apply (nth_ext _ _ sq_white (to_square " "%char)).
  { by rewrite !length_map, Hlr, Hlp. }
  intros n Hn. rewrite length_map, Hlr in Hn.
  rewrite (nth_indep _ sq_white
             ((fun r => if decide (r = EmptyString) then sq_white else r) EmptyString))
    by (rewrite length_map; lia).
  rewrite (map_nth (fun r => if decide (r = EmptyString) then sq_white else r) r2).
  rewrite map_nth, Hri by done. unfold char_at.
  destruct (Hdom n Hn) as [_ Hv]. unfold char_at in Hv.
  destruct Hv as [-> | [-> | ->]]; reflexivity.
Qed.

Lemma map_replicate {A B} (f : A -> B) n x :
  map f (replicate n x) = replicate n (f x).
Proof. induction n as [|n IH]; simpl; congruence. Qed.

(* ------------------------------------------------------------------ *)
(** ** More on [_update_knowledge] *)

Lemma mark_fold_yellow (g r : word) (gp0 : list ascii) (ym0 : gmap ascii (gset nat)) k :
  forall gp ym, fold_left (mark_step g r) (seq 0 k) (gp0, ym0) = (gp, ym) ->
  forall c ps' pos, ym !! c = Some ps' -> pos ∈ ps' ->
  (exists ps, ym0 !! c = Some ps /\ pos ∈ ps) \/
  (pos < k /\ char_at g pos = c /\ char_at r pos = "y"%char).
Proof.
  induction k as [|k IH]; intros gp ym Hf c ps' pos Hc Hpos.
  - simpl in Hf. injection Hf as <- <-. left. eauto.
  - rewrite seq_S, fold_left_app in Hf. simpl in Hf.
    destruct (fold_left (mark_step g r) (seq 0 k) (gp0, ym0)) as [gp1 ym1] eqn:E.
    specialize (IH gp1 ym1 eq_refl).
    assert (Hw : forall ps1, ym1 !! c = Some ps1 -> pos ∈ ps1 ->
                 (exists ps, ym0 !! c = Some ps /\ pos ∈ ps) \/
                 (pos < S k /\ char_at g pos = c /\ char_at r pos = "y"%char)).
    { intros ps1 H1 Hp1. destruct (IH c ps1 pos H1 Hp1) as [H|(Hlt & H2 & H3)];
        [by left|right; split; [lia|done]]. }
    unfold mark_step in Hf.
    destruct (decide (char_at r k = "g"%char)) as [Hg|Hg].
    { injection Hf as <- <-. by apply (Hw ps'). }
    destruct (decide (char_at r k = "y"%char)) as [Hy|Hy].
    2: { injection Hf as <- <-. by apply (Hw ps'). }
    injection Hf as <- <-.
    destruct (decide (c = char_at g k)) as [->|Hne].
    + rewrite lookup_insert_eq in Hc. injection Hc as <-.
      apply elem_of_union in Hpos as [Hpos|Hpos].
      * apply elem_of_singleton in Hpos as ->. right. split; [lia|done].
      * destruct (ym1 !! char_at g k) as [ps1|] eqn:E1; simpl in Hpos;
          [by apply (Hw ps1)|set_solver].
    + rewrite lookup_insert_ne in Hc by congruence. by apply (Hw ps').
Qed.

(** Where the positions recorded for a yellow letter come from. *)
Lemma update_knowledge_yellow (st : knowledge) (g r : word) c ps' pos :
  yellow_misplaced (update_knowledge st g r) !! c = Some ps' -> pos ∈ ps' ->
  (exists ps, yellow_misplaced st !! c = Some ps /\ pos ∈ ps) \/
  (pos < length g /\ char_at g pos = c /\ char_at r pos = "y"%char).
Proof.
  unfold update_knowledge.
  destruct (fold_left (mark_step g r) (seq 0 (length g))
              (green_pattern st, yellow_misplaced st)) as [gp ym] eqn:E1.
  destruct (fold_left (count_step g r) (remove_dups g)
              (letter_min_counts st, letter_max_counts st, greys st))
    as [[mins maxs] grs] eqn:E2.
  simpl. by apply (mark_fold_yellow g r _ _ (length g) gp ym E1).
Qed.

Lemma yellow_counted_update (st : knowledge) (g r : word) :
  yellow_counted st -> yellow_counted (update_knowledge st g r).
Proof.
  intros H c ps' Hc.
  destruct (update_knowledge_spec st g r) as (_ & _ & _ & Y2 & _ & M & _).
  rewrite M. destruct (Y2 c ps' Hc) as [[ps Hps]|(i & Hi & Hgi & Hri)].
  - destruct (H c ps Hps) as (n & Hn & Hpos). rewrite Hn.
    case_bool_decide; simpl; eexists; split; [done| |done|done]. lia.
  - rewrite bool_decide_true by (rewrite <- Hgi; by apply char_at_in).
    eexists; split; [done|].
    assert (0 < mark_count g r c "y"%char); [|lia].
    apply cnt_pos. exists i. split; [apply elem_of_seq; lia|].
    by rewrite !bool_decide_true.
Qed.

Lemma yellow_counted_fold (rounds : list (word * word)) (st : knowledge) :
  yellow_counted st ->
  yellow_counted (fold_left (fun st gr => update_knowledge st (fst gr) (snd gr)) rounds st).
Proof.
  revert st. induction rounds as [|gr rounds IH]; intros st H; simpl; [done|].
  apply IH, yellow_counted_update, H.
Qed.

Lemma yellow_counted_after (L : nat) (rounds : list (word * word)) :
  yellow_counted (knowledge_after L rounds).
Proof.
  apply yellow_counted_fold. intros c ps H. simpl in H. by rewrite lookup_empty in H.
Qed.

(** What the anchored match of the green pattern gives, for any word. *)
Lemma green_regex_match_sound (pat w : word) :
  green_regex_match pat w = true ->
  forall i c, pat !! i = Some c -> c <> "-"%char -> w !! i = Some c.
Proof.
  revert w. induction pat as [|p pat IH]; intros w Hm i c Hi Hc;
    [by rewrite lookup_nil in Hi|].
  destruct w as [|x w]; [discriminate|]. simpl in Hm.
  apply andb_true_iff in Hm as [H0 Hrest]. destruct i as [|i]; simpl in Hi |- *.
  - injection Hi as ->. rewrite decide_False in H0 by done.
    apply (bool_decide_eq_true_1 (c = x)) in H0. by subst.
  - by apply (IH w Hrest i c).
Qed.

(* ------------------------------------------------------------------ *)
(** ** Feedback from one answer: the yellow positions *)

Lemma yellow_sound_update (L : nat) (answer g : word) (st : knowledge) :
  length answer = L -> length g = L -> yellow_sound answer st ->
  yellow_sound answer (update_knowledge st g (get_pattern L g answer)).
Proof.
  intros Ha Hg H c ps' pos Hc Hpos Hans.
  destruct (update_knowledge_yellow st g _ c ps' pos Hc Hpos)
    as [(ps & Hps & Hp)|(Hlt & Hgp & Hrp)]; [by apply (H c ps pos)|].
  rewrite Hg in Hlt.
  assert (Hex : is_exact g answer pos = true).
  { unfold is_exact. apply bool_decide_eq_true_2. rewrite Hgp.
    symmetry. by apply char_at_lookup. }
  apply (get_pattern_exact L g answer Hg Ha pos Hlt) in Hex. congruence.
Qed.

Lemma yellow_sound_after (L : nat) (answer : word) (gs : list word) :
  length answer = L -> Forall (fun g => length g = L) gs ->
  yellow_sound answer (knowledge_after L (consistent_rounds L answer gs)).
Proof.
  intros Ha Hgs. unfold knowledge_after, consistent_rounds.
  assert (H0 : yellow_sound answer (init_knowledge L)).
  { intros c ps pos H. simpl in H. by rewrite lookup_empty in H. }
  revert H0. generalize (init_knowledge L) as st.
  induction Hgs as [|g gs Hg Hgs IH]; intros st H0; simpl; [done|].
  apply IH. by apply yellow_sound_update.
Qed.

(** With feedback from one answer, the answer passes every test of the
    filter. *)
Lemma consistent_answer_ok (L : nat) (answer : word) (gs : list word) :
  length answer = L -> lower_word answer -> Forall (fun g => length g = L) gs ->
  word_ok (knowledge_after L (consistent_rounds L answer gs)) answer = true.
Proof.
  intros Ha Hlow Hgs.
  pose proof (yellow_sound_after L answer gs Ha Hgs) as HY.
  destruct (consistent_inv_after L answer gs Ha Hlow Hgs)
    as (I1 & I2 & I3 & I4 & I5 & _).
  set (st := knowledge_after L (consistent_rounds L answer gs)) in *.
  apply word_ok_spec.
  - congruence.
  - intros Hn. apply (lower_not_newline "010"%char); [|done]. by apply (lower_in answer).
  - split; [|split; [|split; [|split]]].
    + intros i c Hi Hc. pose proof (lookup_lt_Some _ _ _ Hi) as Hlt. rewrite I1 in Hlt.
      apply char_at_lookup in Hi. destruct (I2 i Hlt) as [H|H]; [congruence|].
      rewrite Hi in H. rewrite H. apply lookup_char_at. lia.
    + intros c Hc Hg. by apply (I5 c Hg).
    + exact I4.
    + intros c n Hc. symmetry. by apply I3.
    + exact HY.
Qed.

(* ------------------------------------------------------------------ *)
(** ** Sessions *)

Lemma session_fold_fst (rounds : list (word * word)) (st : knowledge) (P : list word) :
  fst (fold_left round rounds (st, P))
  = fold_left (fun st gr => update_knowledge st (fst gr) (snd gr)) rounds st.
Proof.
  revert st P. induction rounds as [|gr rounds IH]; intros st P; simpl; [done|].
  apply IH.
Qed.

Lemma session_fst (L : nat) (all_words : list word) (rounds : list (word * word)) :
  fst (session L all_words rounds) = knowledge_after L rounds.
Proof. apply session_fold_fst. Qed.

Lemma List_filter_sublist {A} (f : A -> bool) (l : list A) :
  List.filter f l `sublist_of` l.
Proof.
  induction l as [|x l IH]; simpl; [constructor|].
  destruct (f x); [by apply sublist_skip|by apply sublist_cons].
Qed.

Lemma session_fold_sublist (rounds : list (word * word)) (st : knowledge) (P : list word) :
  snd (fold_left round rounds (st, P)) `sublist_of` P.
Proof.
  revert st P. induction rounds as [|gr rounds IH]; intros st P; simpl; [done|].
  etrans; [apply IH|]. apply List_filter_sublist.
Qed.

(* ------------------------------------------------------------------ *)
(** ** Where suggestions come from *)

Lemma frequency_in (possible_words : list word) (best : word) :
  find_best_guess_frequency possible_words = Some best -> best ∈ possible_words.
Proof.
  destruct possible_words as [|w1 [|w2 ws]] eqn:EP; [discriminate|intros [= <-]; constructor|].
  intros H.
  change (Some (fst (fold_left (frequency_step (letter_frequency (w1 :: w2 :: ws)))
                       (w1 :: w2 :: ws) ([], (-1)%Z))) = Some best) in H.
  rewrite <- EP in H. injection H as <-.
  set (freq := letter_frequency possible_words).
  destruct (frequency_scan freq possible_words [] (-1)%Z) as (H1 & H2 & _).
  destruct H2 as [Heq|(pre & post & Hl & _)].
  - exfalso. assert (Hw1 : w1 ∈ possible_words) by (rewrite EP; constructor).
    specialize (H1 w1 Hw1). rewrite Heq in H1. simpl in H1. lia.
  - set (b := fst (fold_left (frequency_step freq) possible_words ([], (-1)%Z))) in *.
    assert (Hin : b ∈ pre ++ b :: post) by (apply elem_of_app; right; constructor).
    rewrite <- EP. by rewrite <- Hl in Hin.
Qed.

Lemma minimax_in_pool (word_length : nat) (all_words possible_words : list word)
    (best : word) :
  Forall (fun w => length w = word_length) possible_words ->
  (forall w, w ∈ possible_words -> w ∈ all_words) ->
  find_best_guess_minimax word_length all_words possible_words = Some best ->
  best ∈ (if 2 <? length possible_words then all_words else possible_words).
Proof.
  intros HL Hsub.
  destruct possible_words as [|w1 [|w2 ws]] eqn:EP; [discriminate|intros [= <-]; constructor|].
  intros H.
  change (Some (fst (fold_left (minimax_step word_length (w1 :: w2 :: ws))
                       (if 2 <? length (w1 :: w2 :: ws) then all_words else w1 :: w2 :: ws)
                       ([], None))) = Some best) in H.
  rewrite <- EP in H, HL, Hsub |- *. injection H as <-.
  set (pool := if 2 <? length possible_words then all_words else possible_words) in *.
  assert (Hw1 : w1 ∈ pool /\ length w1 = word_length).
  { assert (Hin : w1 ∈ possible_words) by (rewrite EP; constructor).
    split.
    - unfold pool. destruct (2 <? length possible_words); [by apply Hsub|done].
    - rewrite Forall_forall in HL. by apply HL. }
  pose proof (minimax_inv_fold word_length possible_words pool [] ([], None)) as Hinv.
  destruct (fold_left (minimax_step word_length possible_words) pool ([], None))
    as [b mmr] eqn:Efold.
  assert (H0 : minimax_inv word_length possible_words [] ([], None))
    by (intros g Hg; inversion Hg).
  specialize (Hinv H0). unfold minimax_inv in Hinv. simpl in Hinv |- *.
  destruct mmr as [m|]; [by destruct Hinv|].
  exfalso. destruct Hw1 as [Hw1 Hl1]. by apply (Hinv w1).
Qed.

Lemma suggest_in_all (alg : algorithm) (word_length : nat)
    (all_words possible_words : list word) (s : word) :
  Forall (fun w => length w = word_length) possible_words ->
  (forall w, w ∈ possible_words -> w ∈ all_words) ->
  suggest alg word_length all_words possible_words = Some s -> s ∈ all_words.
Proof.
  intros HL Hsub. destruct alg; simpl; intros H.
  - by apply Hsub, frequency_in.
  - apply minimax_in_pool in H; [|done|done].
    destruct (2 <? length possible_words); [done|by apply Hsub].
Qed.

Lemma list_remove_elem {A} `{EqDecision A} (x y : A) (l : list A) :
  y ∈ list_remove x l -> y ∈ l.
Proof.
  induction l as [|z l IH]; simpl; [done|].
  destruct (decide (x = z)); [intros H; by right|].
  intros H. apply elem_of_cons in H as [->|H]; [left|right; by apply IH].
Qed.

Lemma list_remove_keep {A} `{EqDecision A} (x y : A) (l : list A) :
  y ∈ l -> y <> x -> y ∈ list_remove x l.
Proof.
  induction l as [|z l IH]; simpl; [done|].
  intros Hy Hne. apply elem_of_cons in Hy as [->|Hy].
  - rewrite decide_False by congruence. left.
  - destruct (decide (x = z)); [done|]. right. by apply IH.
Qed.

Lemma list_remove_NoDup {A} `{EqDecision A} (x : A) (l : list A) :
  NoDup l -> x ∉ list_remove x l.
Proof.
  induction 1 as [|z l Hz Hnd IH]; simpl; [set_solver|].
  destruct (decide (x = z)) as [->|Hne]; [done|].
  intros H. apply elem_of_cons in H as [->|H]; [done|by apply IH].
Qed.

(* ------------------------------------------------------------------ *)
(** ** Minimax: the worst case of a guess *)

Lemma bucket_size_le (L : nat) (P : list word) (g p : word) :
  bucket_size L P g p <= length P.
Proof.
  unfold bucket_size. induction P as [|a P IH]; simpl; [lia|].
  case_bool_decide; simpl; lia.
Qed.

Lemma bucket_size_own (L : nat) (P : list word) (g a : word) :
  a ∈ P -> 1 <= bucket_size L P g (get_pattern L g a).
Proof.
  unfold bucket_size. induction P as [|b P IH]; intros Ha; [inversion Ha|].
  simpl. apply elem_of_cons in Ha as [->|Ha].
  - rewrite bool_decide_true by done. simpl. lia.
  - specialize (IH Ha). case_bool_decide; simpl; lia.
Qed.

(* ------------------------------------------------------------------ *)
(** ** sim.py's feedback for a guess of the right length *)

Lemma check_guess_green_iff (guess secret_word : word) :
  length guess = length secret_word ->
  length (check_guess guess secret_word) = length secret_word /\
  (check_guess guess secret_word = replicate (length secret_word) sq_green
   <-> guess = secret_word).
Proof.
  intros Hl. rewrite check_guess_pattern by done.
  set (L := length secret_word) in *.
  assert (Hlp : length (get_pattern L guess secret_word) = L)
    by (by apply get_pattern_length).
  split; [by rewrite length_map|].
  rewrite <- (get_pattern_all_green L guess secret_word Hl eq_refl). split.
  - intros H. apply word_eq_char_at; [by rewrite Hlp, length_replicate|].
    intros i Hi. rewrite Hlp in Hi. rewrite char_at_replicate by done.
    assert (Hn := f_equal (fun l => nth i l (to_square " "%char)) H). simpl in Hn.
    rewrite map_nth in Hn. rewrite (nth_lookup (replicate _ _)), lookup_replicate_2 in Hn by done.
    simpl in Hn.
    change (nth i (get_pattern L guess secret_word) " "%char)
      with (char_at (get_pattern L guess secret_word) i) in Hn.
    destruct (get_pattern_values L guess secret_word Hl eq_refl i Hi) as [Hv|[Hv|Hv]];
      rewrite Hv in Hn; [done| |]; vm_compute in Hn; discriminate.
  - intros ->. rewrite map_replicate. reflexivity.
Qed.

Lemma check_guess_self (secret_word : word) :
  check_guess secret_word secret_word = replicate (length secret_word) sq_green.
Proof. by apply check_guess_green_iff. Qed.

(* ------------------------------------------------------------------ *)
(** ** Candidates and the hard-mode check *)

Lemma word_ok_hard_mode (L : nat) (rounds : list (word * word)) (w : word) :
  word_ok (knowledge_after L rounds) w = true ->
  is_valid_hard_mode_guess (knowledge_after L rounds) w = true.
Proof.
  intros Hok. unfold word_ok in Hok. rewrite !andb_true_iff in Hok.
  destruct Hok as [[[[Hg _] Hmin] _] _].
  apply is_valid_hard_mode_guess_spec. split.
  - intros i c Hi Hc. apply char_at_lookup. by apply (green_regex_match_sound _ _ Hg i c).
  - intros c ps Hc. destruct (yellow_counted_after L rounds c ps Hc) as (n & Hn & Hpos).
    rewrite min_counts_ok_spec in Hmin. specialize (Hmin c n Hn).
    apply occurrences_pos. lia.
Qed.

Lemma suggest_nonempty (alg : algorithm) (word_length : nat)
    (all_words possible_words : list word) :
  possible_words <> [] -> suggest alg word_length all_words possible_words <> None.
Proof.
  intros Hne. destruct alg, possible_words as [|w1 [|w2 ws]]; simpl; done.
Qed.

(** The candidates after the rounds of [gs] keep the answer. *)
Lemma session_keeps_answer (L : nat) (all_words : list word) (answer : word)
    (gs : list word) :
  length answer = L -> lower_word answer -> Forall (fun g => length g = L) gs ->
  answer ∈ all_words ->
  answer ∈ snd (session L all_words (consistent_rounds L answer gs)).
Proof.
  intros Ha Hlow. induction gs as [|g gs IH] using rev_ind; intros Hgs Hall.
  - unfold session, start. simpl. apply list_elem_of_In, filter_In.
    split; [by apply list_elem_of_In|]. by apply Nat.eqb_eq.
  - apply Forall_app in Hgs as [Hgs Hg].
    unfold session, consistent_rounds. rewrite map_app, fold_left_app. simpl.
    fold (consistent_rounds L answer gs).
    fold (session L all_words (consistent_rounds L answer gs)).
    pose proof (session_fst L all_words (consistent_rounds L answer gs)) as Hf.
    destruct (session L all_words (consistent_rounds L answer gs)) as [st P] eqn:ES.
    simpl in Hf |- *. subst st.
    unfold filter_words. apply list_elem_of_In, filter_In. split.
    + apply list_elem_of_In. by apply IH.
    + pose proof (consistent_answer_ok L answer (gs ++ [g]) Ha Hlow
                    ltac:(by apply Forall_app)) as Hok.
      unfold knowledge_after, consistent_rounds in Hok.
      rewrite map_app, fold_left_app in Hok. exact Hok.
Qed.

(* ------------------------------------------------------------------ *)
(** ** The '/new' command *)

Lemma discard_suggestion_sub (s : word) (all_words possible_words all' P' : list word) :
  NoDup possible_words ->
  (forall w, w ∈ possible_words -> w ∈ all_words) ->
  discard_suggestion s all_words possible_words = Some (all', P') ->
  s <> [] ->
  (forall w, w ∈ P' -> w ∈ possible_words) /\
  (forall w, w ∈ P' -> w ∈ all') /\ s ∉ P'.
Proof.
  intros HndP Hsub Hd Hs. destruct s as [|c s]; [done|]. unfold discard_suggestion in Hd.
  unfold set_remove in Hd. destruct (decide (c :: s ∈ all_words)) as [Hin|]; [|discriminate].
  injection Hd as <- <-.
  destruct (decide (c :: s ∈ possible_words)) as [HinP|HnP].
  - assert (Hn := list_remove_NoDup (c :: s) possible_words HndP).
    split; [intros w Hw; by apply list_remove_elem in Hw|]. split; [|done].
    intros w Hw. apply list_remove_keep.
    + apply Hsub. by apply list_remove_elem in Hw.
    + intros ->. by apply Hn.
  - split; [done|]. split; [|done]. intros w Hw. apply list_remove_keep; [by apply Hsub|].
    intros ->. by apply HnP.
Qed.

Lemma discard_suggestion_all (s : word) (all_words possible_words all' P' : list word) :
  NoDup all_words -> discard_suggestion s all_words possible_words = Some (all', P') ->
  s <> [] -> s ∉ all'.
Proof.
  intros Hnd Hd Hs. destruct s as [|c s]; [done|]. unfold discard_suggestion, set_remove in Hd.
  destruct (decide (c :: s ∈ all_words)); [|discriminate]. injection Hd as <- _.
  by apply list_remove_NoDup.
Qed.

(* ------------------------------------------------------------------ *)
(** ** sim.py's game loop *)

Lemma read_guess_valid (word_length : nat) (valid inputs rest : list word) (guess : word) :
  read_guess word_length valid inputs = Some (guess, rest) ->
  length guess = word_length /\ guess ∈ valid.
Proof.
  induction inputs as [|g inputs IH]; simpl; [discriminate|].
  destruct (length g =? word_length) eqn:El; simpl; [|apply IH].
  case_bool_decide as Hg; simpl; [|apply IH].
  intros [= <- _]. split; [by apply Nat.eqb_eq|done].
Qed.

Lemma game_loop_history (n word_length : nat) (valid : list word) (secret_word : word)
    (inputs : list word) (h : list (word * list string)) :
  Forall (fun gr => fst gr ∈ valid /\ snd gr = check_guess (fst gr) secret_word) h ->
  Forall (fun gr => fst gr ∈ valid /\ snd gr = check_guess (fst gr) secret_word)
         (game_history (game_loop n word_length valid secret_word inputs h)).
Proof.
  revert inputs h. induction n as [|n IH]; intros inputs h Hh; simpl; [done|].
  destruct (read_guess word_length valid inputs) as [[g rest]|] eqn:Er; [|done].
  apply read_guess_valid in Er as [_ Hg].
  assert (Hh' : Forall (fun gr => fst gr ∈ valid /\ snd gr = check_guess (fst gr) secret_word)
                       (h ++ [(g, check_guess g secret_word)]))
    by (apply Forall_app; split; [done|by constructor]).
  case_bool_decide; [done|]. by apply IH.
Qed.

Lemma game_loop_outcome (n word_length : nat) (valid : list word) (secret_word : word)
    (inputs : list word) (h : list (word * list string)) :
  Forall (fun gr => fst gr <> secret_word) h ->
  match game_loop n word_length valid secret_word inputs h with
  | Won h' => length h' <= length h + n /\
      exists h0, h' = h0 ++ [(secret_word, check_guess secret_word secret_word)] /\
                 Forall (fun gr => fst gr <> secret_word) h0
  | Lost h' => length h' = length h + n /\ Forall (fun gr => fst gr <> secret_word) h'
  | NoInput h' => length h' < length h + n /\ Forall (fun gr => fst gr <> secret_word) h'
  end.
Proof.
  revert inputs h. induction n as [|n IH]; intros inputs h Hh; simpl; [split; [lia|done]|].
  destruct (read_guess word_length valid inputs) as [[g rest]|] eqn:Er; [|split; [lia|done]].
  case_bool_decide as Hg.
  - subst g. rewrite length_app. simpl. split; [lia|]. by exists h.
  - assert (Hh' : Forall (fun gr => fst gr <> secret_word)
                         (h ++ [(g, check_guess g secret_word)]))
      by (apply Forall_app; split; [done|by constructor]).
    specialize (IH rest _ Hh'). rewrite length_app in IH. simpl in IH.
    destruct (game_loop n word_length valid secret_word rest _);
      destruct IH as [IH1 IH2]; (split; [lia|done]).
Qed.

(* ------------------------------------------------------------------ *)
(** * Further properties of the code *)

(** X1: for a guess and an answer of length [L], [_get_pattern] returns
    the all-'g' pattern exactly when the guess is the answer. *)
Theorem pattern_all_green_iff_same (L : nat) (guess answer : word) :
  length guess = L -> length answer = L ->
  get_pattern L guess answer = replicate L "g"%char <-> guess = answer.
Proof. apply get_pattern_all_green. Qed.

Lemma pattern_all_green_iff_same_witness :
  length (list_ascii_of_string "cat") = 3 /\ length (list_ascii_of_string "act") = 3 /\
  (get_pattern 3 (list_ascii_of_string "cat") (list_ascii_of_string "act")
   = replicate 3 "g"%char
   <-> list_ascii_of_string "cat" = list_ascii_of_string "act").
Proof.
  split; [reflexivity|]. split; [reflexivity|].
  apply pattern_all_green_iff_same; reflexivity.
Defined.

(** X2: for a guess and an answer of length [L], each letter [c] of the
    guess gets as many 'g' and 'y' marks together as the smaller of its
    number of copies in the guess and in the answer. *)
Theorem pattern_marks_per_letter (L : nat) (guess answer : word) (c : ascii) :
  length guess = L -> length answer = L ->
  mark_count guess (get_pattern L guess answer) c "g"%char
  + mark_count guess (get_pattern L guess answer) c "y"%char
  = Nat.min (occurrences c guess) (occurrences c answer).
Proof. apply get_pattern_marks_min. Qed.

Lemma pattern_marks_per_letter_witness :
  length (list_ascii_of_string "speed") = 5 /\ length (list_ascii_of_string "erase") = 5 /\
  mark_count (list_ascii_of_string "speed")
    (get_pattern 5 (list_ascii_of_string "speed") (list_ascii_of_string "erase"))
    "e"%char "g"%char
  + mark_count (list_ascii_of_string "speed")
      (get_pattern 5 (list_ascii_of_string "speed") (list_ascii_of_string "erase"))
      "e"%char "y"%char
  = Nat.min (occurrences "e"%char (list_ascii_of_string "speed"))
            (occurrences "e"%char (list_ascii_of_string "erase")).
Proof.
  split; [reflexivity|]. split; [reflexivity|].
  apply pattern_marks_per_letter; reflexivity.
Defined.

(** X3: at a position [i < L], a 'y' mark means the guessed letter differs
    from the answer's letter there but occurs in the answer; and a guessed
    letter that does not occur in the answer always gets '-'. *)
Theorem pattern_yellow_grey_meaning (L : nat) (guess answer : word) (i : nat) :
  length guess = L -> length answer = L -> i < L ->
  (char_at (get_pattern L guess answer) i = "y"%char ->
   char_at guess i <> char_at answer i /\ char_at guess i ∈ answer) /\
  (char_at guess i ∉ answer -> char_at (get_pattern L guess answer) i = "-"%char).
Proof. apply get_pattern_yellow_grey. Qed.

Lemma pattern_yellow_grey_meaning_witness :
  length (list_ascii_of_string "speed") = 5 /\ length (list_ascii_of_string "erase") = 5 /\
  0 < 5 /\
  (char_at (get_pattern 5 (list_ascii_of_string "speed") (list_ascii_of_string "erase")) 0
     = "y"%char ->
   char_at (list_ascii_of_string "speed") 0 <> char_at (list_ascii_of_string "erase") 0 /\
   char_at (list_ascii_of_string "speed") 0 ∈ list_ascii_of_string "erase") /\
  (char_at (list_ascii_of_string "speed") 0 ∉ list_ascii_of_string "erase" ->
   char_at (get_pattern 5 (list_ascii_of_string "speed") (list_ascii_of_string "erase")) 0
     = "-"%char).
Proof.
  split; [reflexivity|]. split; [reflexivity|]. split; [lia|].
  apply pattern_yellow_grey_meaning; [reflexivity|reflexivity|lia].
Defined.

(** X4: when the results string typed in [run] is the pattern of the guess
    against an answer (both of length [L]), the format check never rejects
    it; the turn ends the game exactly when the guess is the answer, and
    otherwise updates the knowledge and filters the candidates. *)
Theorem feedback_turn_true_pattern (L : nat) (st : knowledge)
    (possible_words : list word) (guess answer : word) :
  length guess = L -> length answer = L ->
  feedback_turn L st possible_words guess (get_pattern L guess answer)
  = if bool_decide (guess = answer) then Solved
    else Updated (update_knowledge st guess (get_pattern L guess answer))
                 (filter_words (update_knowledge st guess (get_pattern L guess answer))
                               possible_words).
Proof.
  intros Hg Ha. unfold feedback_turn.
  assert (Hf : results_format_ok L (get_pattern L guess answer) = true).
  { unfold results_format_ok. apply andb_true_iff. split.
    - apply Nat.eqb_eq. by apply get_pattern_length.
    - apply forallb_forall. intros x Hx. apply list_elem_of_In in Hx.
      pose proof (get_pattern_Forall L guess answer Hg Ha) as HF.
      rewrite Forall_forall in HF.
      destruct (HF x Hx) as [ -> | [ -> | -> ]]; vm_compute; reflexivity. }
  rewrite Hf. cbn [negb].
  rewrite (bool_decide_ext (get_pattern L guess answer = replicate L "g"%char)
                           (guess = answer))
    by (by apply get_pattern_all_green).
  reflexivity.
Qed.

Lemma feedback_turn_true_pattern_witness :
  length (list_ascii_of_string "act") = 3 /\ length (list_ascii_of_string "cat") = 3 /\
  feedback_turn 3 (init_knowledge 3) [list_ascii_of_string "cat"]
    (list_ascii_of_string "act")
    (get_pattern 3 (list_ascii_of_string "act") (list_ascii_of_string "cat"))
  = if bool_decide (list_ascii_of_string "act" = list_ascii_of_string "cat") then Solved
    else Updated (update_knowledge (init_knowledge 3) (list_ascii_of_string "act")
                    (get_pattern 3 (list_ascii_of_string "act") (list_ascii_of_string "cat")))
                 (filter_words
                    (update_knowledge (init_knowledge 3) (list_ascii_of_string "act")
                       (get_pattern 3 (list_ascii_of_string "act")
                          (list_ascii_of_string "cat")))
                    [list_ascii_of_string "cat"]).
Proof.
  split; [reflexivity|]. split; [reflexivity|].
  apply feedback_turn_true_pattern; reflexivity.
Defined.

(** X5: for a guess as long as the secret word, sim.py's [check_guess]
    returns one square per letter of the secret, and all of them are green
    exactly when the guess is the secret (the game's win test). *)
Theorem check_guess_win_iff_equal (guess secret_word : word) :
  length guess = length secret_word ->
  length (check_guess guess secret_word) = length secret_word /\
  (check_guess guess secret_word = replicate (length secret_word) sq_green
   <-> guess = secret_word).
Proof. apply check_guess_green_iff. Qed.

Lemma check_guess_win_iff_equal_witness :
  length (list_ascii_of_string "speed") = length (list_ascii_of_string "erase") /\
  length (check_guess (list_ascii_of_string "speed") (list_ascii_of_string "erase"))
    = length (list_ascii_of_string "erase") /\
  (check_guess (list_ascii_of_string "speed") (list_ascii_of_string "erase")
   = replicate (length (list_ascii_of_string "erase")) sq_green
   <-> list_ascii_of_string "speed" = list_ascii_of_string "erase").
Proof.
  split; [reflexivity|]. apply check_guess_win_iff_equal. reflexivity.
Defined.

(** X6: whatever the guess and the results string, one call of
    [_update_knowledge] keeps the length of the green pattern, changes a
    green position only where the results have a 'g' (to the guessed
    letter), drops no yellow position, lowers no minimum count, changes the
    maximum count only of a letter of the guess with a '-' mark, and
    removes no grey letter. *)
Theorem update_knowledge_monotone (st : knowledge) (guess results : word) :
  let st' := update_knowledge st guess results in
  length (green_pattern st') = length (green_pattern st) /\
  (forall i, i < length (green_pattern st) ->
     char_at (green_pattern st') i = char_at (green_pattern st) i \/
     (i < length guess /\ char_at results i = "g"%char /\
      char_at (green_pattern st') i = char_at guess i)) /\
  (forall c ps, yellow_misplaced st !! c = Some ps ->
     exists ps', yellow_misplaced st' !! c = Some ps' /\ ps ⊆ ps') /\
  (forall c n, letter_min_counts st !! c = Some n ->
     exists n', letter_min_counts st' !! c = Some n' /\ n <= n') /\
  (forall c, c ∉ guess \/ mark_count guess results c "-"%char = 0 ->
     letter_max_counts st' !! c = letter_max_counts st !! c) /\
  greys st ⊆ greys st'.
Proof.
  destruct (update_knowledge_spec st guess results) as (G1 & G2 & Y1 & _ & _ & M & X & R).
  split; [done|]. split; [|split; [done|split; [|split]]].
  - intros i Hi. rewrite G2 by done.
    destruct ((i <? length guess) && bool_decide (char_at results i = "g"%char)) eqn:E;
      [right|by left].
    apply andb_true_iff in E as [E1 E2]. apply Nat.ltb_lt in E1.
    apply (bool_decide_eq_true_1 (char_at results i = "g"%char)) in E2. done.
  - intros c n Hn. rewrite M, Hn. case_bool_decide; simpl; eexists; (split; [done|lia]).
  - intros c Hc. rewrite X. rewrite bool_decide_false; [done|].
    intros [H1 H2]. destruct Hc; [done|lia].
  - apply elem_of_subseteq. intros c Hc. apply R. by left.
Qed.

(** X7: after any sequence of updates from the initial state, whatever the
    results strings, every letter with recorded yellow positions has a
    positive minimum count. *)
Theorem yellow_letters_have_min_count (L : nat) (rounds : list (word * word))
    (c : ascii) (ps : gset nat) :
  yellow_misplaced (knowledge_after L rounds) !! c = Some ps ->
  exists n, letter_min_counts (knowledge_after L rounds) !! c = Some n /\ 0 < n.
Proof. apply yellow_counted_after. Qed.

Lemma yellow_letters_have_min_count_witness :
  let rounds := [(list_ascii_of_string "abc", list_ascii_of_string "-y-")] in
  yellow_misplaced (knowledge_after 3 rounds) !! "b"%char = Some {[1]} /\
  exists n, letter_min_counts (knowledge_after 3 rounds) !! "b"%char = Some n /\ 0 < n.
Proof.
  intros rounds.
  assert (H : yellow_misplaced (knowledge_after 3 rounds) !! "b"%char = Some {[1]})
    by (vm_compute; reflexivity).
  split; [exact H|]. exact (yellow_letters_have_min_count 3 rounds "b"%char {[1]} H).
Defined.



(** X9: when every results string is the pattern of its guess against one
    lowercase answer (all of length [L]), the knowledge built by
    [_update_knowledge] is true of that answer: green letters sit at their
    positions in it, grey letters do not occur in it, minimum counts are at
    most and maximum counts exactly its number of copies, and no yellow
    position holds the yellow letter in it. *)
Theorem consistent_knowledge_sound (L : nat) (answer : word) (guesses : list word) :
  length answer = L -> lower_word answer -> Forall (fun g => length g = L) guesses ->
  let st := knowledge_after L (consistent_rounds L answer guesses) in
  (forall i c, green_pattern st !! i = Some c -> c <> "-"%char -> answer !! i = Some c) /\
  (forall c, c ∈ greys st -> c ∉ answer) /\
  (forall c n, letter_min_counts st !! c = Some n -> n <= occurrences c answer) /\
  (forall c n, letter_max_counts st !! c = Some n -> occurrences c answer = n) /\
  (forall c ps pos, yellow_misplaced st !! c = Some ps -> pos ∈ ps ->
     answer !! pos <> Some c).
Proof.
  intros Ha Hlow Hgs st.
  pose proof (consistent_answer_ok L answer guesses Ha Hlow Hgs) as Hok.
  destruct (consistent_inv_after L answer guesses Ha Hlow Hgs) as (I1 & _).
  apply word_ok_spec in Hok as (H1 & H2 & H3 & H4 & H5).
  - split; [done|]. split; [|done]. intros c Hc Hin. by apply (H2 c Hin).
  - unfold st. congruence.
  - intros Hn. apply (lower_not_newline "010"%char); [|done]. by apply (lower_in answer).
Qed.

Lemma consistent_knowledge_sound_witness :
  let gs := [list_ascii_of_string "arise"; list_ascii_of_string "cloth"] in
  length (list_ascii_of_string "those") = 5 /\ lower_word (list_ascii_of_string "those") /\
  Forall (fun g => length g = 5) gs /\
  let st := knowledge_after 5 (consistent_rounds 5 (list_ascii_of_string "those") gs) in
  (forall i c, green_pattern st !! i = Some c -> c <> "-"%char ->
     list_ascii_of_string "those" !! i = Some c) /\
  (forall c, c ∈ greys st -> c ∉ list_ascii_of_string "those") /\
  (forall c n, letter_min_counts st !! c = Some n ->
     n <= occurrences c (list_ascii_of_string "those")) /\
  (forall c n, letter_max_counts st !! c = Some n ->
     occurrences c (list_ascii_of_string "those") = n) /\
  (forall c ps pos, yellow_misplaced st !! c = Some ps -> pos ∈ ps ->
     list_ascii_of_string "those" !! pos <> Some c).
Proof.
  intros gs.
  assert (H1 : length (list_ascii_of_string "those") = 5) by reflexivity.
  assert (H2 : lower_word (list_ascii_of_string "those")) by solve_lower_word.
  assert (H3 : Forall (fun g => length g = 5) gs) by repeat constructor.
  split; [exact H1|]. split; [exact H2|]. split; [exact H3|].
  exact (consistent_knowledge_sound 5 _ gs H1 H2 H3).
Defined.

(** X10: when every results string is the pattern of its guess against one
    lowercase answer of the list (all of length [L]), the answer stays among
    the candidates after every turn, so the solver always has a suggestion,
    with either algorithm. *)
Theorem answer_stays_candidate (L : nat) (all_words : list word) (answer : word)
    (guesses : list word) (alg : algorithm) :
  length answer = L -> lower_word answer -> Forall (fun g => length g = L) guesses ->
  answer ∈ all_words ->
  answer ∈ snd (session L all_words (consistent_rounds L answer guesses)) /\
  suggest alg L all_words (snd (session L all_words (consistent_rounds L answer guesses)))
  <> None.
Proof.
  intros Ha Hlow Hgs Hall.
  pose proof (session_keeps_answer L all_words answer guesses Ha Hlow Hgs Hall) as H.
  split; [done|]. apply suggest_nonempty. intros He. rewrite He in H. by apply not_elem_of_nil in H.
Qed.

Lemma answer_stays_candidate_witness :
  let all_words := [list_ascii_of_string "those"; list_ascii_of_string "arise";
                    list_ascii_of_string "cloth"; list_ascii_of_string "hose"] in
  let gs := [list_ascii_of_string "arise"; list_ascii_of_string "cloth"] in
  length (list_ascii_of_string "those") = 5 /\ lower_word (list_ascii_of_string "those") /\
  Forall (fun g => length g = 5) gs /\ list_ascii_of_string "those" ∈ all_words /\
  list_ascii_of_string "those"
    ∈ snd (session 5 all_words (consistent_rounds 5 (list_ascii_of_string "those") gs)) /\
  suggest Minimax 5 all_words
    (snd (session 5 all_words (consistent_rounds 5 (list_ascii_of_string "those") gs)))
  <> None.
Proof.
  intros all_words gs.
  assert (H1 : length (list_ascii_of_string "those") = 5) by reflexivity.
  assert (H2 : lower_word (list_ascii_of_string "those")) by solve_lower_word.
  assert (H3 : Forall (fun g => length g = 5) gs) by repeat constructor.
  assert (H4 : list_ascii_of_string "those" ∈ all_words) by (left).
  split; [exact H1|]. split; [exact H2|]. split; [exact H3|]. split; [exact H4|].
  exact (answer_stays_candidate 5 all_words _ gs Minimax H1 H2 H3 H4).
Defined.

(** X11: under the same correct feedback, typing the answer itself as the
    next guess always passes [run]'s checks (length, and in hard mode
    [_is_valid_hard_mode_guess]). *)
Theorem answer_accepted_as_guess (L : nat) (answer : word) (guesses : list word)
    (hard_mode : bool) :
  length answer = L -> lower_word answer -> Forall (fun g => length g = L) guesses ->
  guess_accepted hard_mode L (knowledge_after L (consistent_rounds L answer guesses)) answer
  = true.
Proof.
  intros Ha Hlow Hgs. unfold guess_accepted.
  rewrite (proj2 (Nat.eqb_eq _ _) Ha). simpl.
  rewrite word_ok_hard_mode by (by apply consistent_answer_ok).
  by destruct hard_mode.
Qed.

Lemma answer_accepted_as_guess_witness :
  let gs := [list_ascii_of_string "arise"; list_ascii_of_string "cloth"] in
  length (list_ascii_of_string "those") = 5 /\ lower_word (list_ascii_of_string "those") /\
  Forall (fun g => length g = 5) gs /\
  guess_accepted true 5
    (knowledge_after 5 (consistent_rounds 5 (list_ascii_of_string "those") gs))
    (list_ascii_of_string "those") = true.
Proof.
  intros gs.
  assert (H1 : length (list_ascii_of_string "those") = 5) by reflexivity.
  assert (H2 : lower_word (list_ascii_of_string "those")) by solve_lower_word.
  assert (H3 : Forall (fun g => length g = 5) gs) by repeat constructor.
  split; [exact H1|]. split; [exact H2|]. split; [exact H3|].
  exact (answer_accepted_as_guess 5 _ gs true H1 H2 H3).
Defined.

(** X12: whatever guesses and results strings are entered, the candidate
    list is at every turn a sublist of the words of length [L] of the word
    list, in their order; so its words come from the word list, have length
    [L], and are distinct when the word list is (it is a Python set). *)
Theorem session_candidates_sublist (L : nat) (all_words : list word)
    (rounds : list (word * word)) :
  snd (session L all_words rounds)
    `sublist_of` List.filter (fun w => length w =? L) all_words /\
  (forall w, w ∈ snd (session L all_words rounds) -> w ∈ all_words /\ length w = L) /\
  (NoDup all_words -> NoDup (snd (session L all_words rounds))).
Proof.
  assert (Hs : snd (session L all_words rounds)
                 `sublist_of` List.filter (fun w => length w =? L) all_words)
    by apply session_fold_sublist.
  split; [done|]. split.
  - intros w Hw. eapply elem_of_sublist in Hw; [|exact Hs].
    apply list_elem_of_In, filter_In in Hw as [Hw Hl].
    split; [by apply list_elem_of_In|by apply Nat.eqb_eq].
  - intros Hnd. eapply sublist_NoDup; [|exact Hs].
    eapply sublist_NoDup; [exact Hnd|apply List_filter_sublist].
Qed.

(** X13: a suggestion made from candidates of length [L] that all belong to
    the word list is in the word list, so the '/new' command removes it
    without Python's [KeyError]. *)
Theorem suggestion_removable (alg : algorithm) (L : nat)
    (all_words possible_words : list word) (s : word) :
  Forall (fun w => length w = L) possible_words ->
  (forall w, w ∈ possible_words -> w ∈ all_words) ->
  suggest alg L all_words possible_words = Some s ->
  s ∈ all_words /\
  exists all' P', discard_suggestion s all_words possible_words = Some (all', P').
Proof.
  intros HL Hsub Hs. pose proof (suggest_in_all alg L all_words possible_words s HL Hsub Hs) as Hin.
  split; [done|]. unfold discard_suggestion, set_remove.
  destruct s as [|c s]; [by eauto|]. rewrite decide_True by done. by eauto.
Qed.

Lemma suggestion_removable_witness :
  let all_words := [list_ascii_of_string "ab"; list_ascii_of_string "ba";
                    list_ascii_of_string "cd"; list_ascii_of_string "ca"] in
  let P := [list_ascii_of_string "ab"; list_ascii_of_string "ba";
            list_ascii_of_string "cd"] in
  Forall (fun w => length w = 2) P /\ (forall w, w ∈ P -> w ∈ all_words) /\
  suggest Minimax 2 all_words P = Some (list_ascii_of_string "ab") /\
  list_ascii_of_string "ab" ∈ all_words /\
  exists all' P', discard_suggestion (list_ascii_of_string "ab") all_words P = Some (all', P').
Proof.
  intros all_words P.
  assert (H1 : Forall (fun w => length w = 2) P) by repeat constructor.
  assert (H2 : forall w, w ∈ P -> w ∈ all_words).
  { intros w Hw. unfold P in Hw. unfold all_words.
    repeat (apply elem_of_cons in Hw as [->|Hw]; [by repeat constructor|]).
    by apply not_elem_of_nil in Hw. }
  assert (H3 : suggest Minimax 2 all_words P = Some (list_ascii_of_string "ab"))
    by (vm_compute; reflexivity).
  split; [exact H1|]. split; [exact H2|]. split; [exact H3|].
  exact (suggestion_removable Minimax 2 all_words P _ H1 H2 H3).
Defined.

(** X14: after '/new' discards a non-empty suggestion, from a word list and a
    candidate list without repeats (candidates of length [L], all in the word
    list), the next suggestion, with either algorithm, is never that word. *)
Theorem new_never_resuggests (alg : algorithm) (L : nat)
    (all_words possible_words all' P' : list word) (s : word) :
  NoDup all_words -> NoDup possible_words ->
  Forall (fun w => length w = L) possible_words ->
  (forall w, w ∈ possible_words -> w ∈ all_words) ->
  s <> [] ->
  discard_suggestion s all_words possible_words = Some (all', P') ->
  suggest alg L all' P' <> Some s.
Proof.
  intros Hnd HndP HL Hsub Hs Hd Hsug.
  destruct (discard_suggestion_sub s all_words possible_words all' P' HndP Hsub Hd Hs)
    as (HP & Hsub' & _).
  assert (HL' : Forall (fun w => length w = L) P').
  { rewrite Forall_forall in HL |- *. intros w Hw. by apply HL, HP. }
  apply (discard_suggestion_all s all_words possible_words all' P' Hnd Hd Hs).
  by apply (suggest_in_all alg L all' P').
Qed.

Lemma new_never_resuggests_witness :
  let all_words := [list_ascii_of_string "ab"; list_ascii_of_string "ba";
                    list_ascii_of_string "cd"] in
  let P := [list_ascii_of_string "ab"; list_ascii_of_string "ba"] in
  NoDup all_words /\ NoDup P /\ Forall (fun w => length w = 2) P /\
  (forall w, w ∈ P -> w ∈ all_words) /\ list_ascii_of_string "ab" <> [] /\
  discard_suggestion (list_ascii_of_string "ab") all_words P
    = Some ([list_ascii_of_string "ba"; list_ascii_of_string "cd"],
            [list_ascii_of_string "ba"]) /\
  suggest Frequency 2 [list_ascii_of_string "ba"; list_ascii_of_string "cd"]
    [list_ascii_of_string "ba"] <> Some (list_ascii_of_string "ab").
Proof.
  intros all_words P.
  assert (H1 : NoDup all_words) by (apply (bool_decide_unpack _); vm_compute; exact I).
  assert (H2 : NoDup P) by (apply (bool_decide_unpack _); vm_compute; exact I).
  assert (H3 : Forall (fun w => length w = 2) P) by repeat constructor.
  assert (H4 : forall w, w ∈ P -> w ∈ all_words).
  { intros w Hw. unfold P in Hw. unfold all_words.
    repeat (apply elem_of_cons in Hw as [->|Hw]; [by repeat constructor|]).
    by apply not_elem_of_nil in Hw. }
  assert (H5 : list_ascii_of_string "ab" <> []) by discriminate.
  assert (H6 : discard_suggestion (list_ascii_of_string "ab") all_words P
    = Some ([list_ascii_of_string "ba"; list_ascii_of_string "cd"],
            [list_ascii_of_string "ba"])) by (vm_compute; reflexivity).
  split; [exact H1|]. split; [exact H2|]. split; [exact H3|]. split; [exact H4|].
  split; [exact H5|]. split; [exact H6|].
  exact (new_never_resuggests Frequency 2 all_words P _ _ _ H1 H2 H3 H4 H5 H6).
Defined.

(** X15: for a non-empty candidate list, [max(pattern_counts.values())] in
    [find_best_guess_minimax] is at least 1 and at most the number of
    candidates. *)
Theorem max_remaining_bounds (L : nat) (possible_words : list word) (guess : word) :
  possible_words <> [] ->
  1 <= max_remaining L possible_words guess <= length possible_words.
Proof.
  intros Hne. rewrite max_remaining_worst. unfold worst_case_bucket. split.
  - destruct possible_words as [|a P]; [done|].
    etrans; [apply (bucket_size_own L (a :: P) guess a); left|].
    apply list_max_in. simpl. by left.
  - apply list_max_le. apply List.Forall_forall. intros x Hx.
    apply in_map_iff in Hx as (a & <- & _). apply bucket_size_le.
Qed.

Lemma max_remaining_bounds_witness :
  [list_ascii_of_string "ab"; list_ascii_of_string "ba"] <> [] /\
  1 <= max_remaining 2 [list_ascii_of_string "ab"; list_ascii_of_string "ba"]
         (list_ascii_of_string "cd")
    <= length [list_ascii_of_string "ab"; list_ascii_of_string "ba"].
Proof.
  assert (H : [list_ascii_of_string "ab"; list_ascii_of_string "ba"] <> []) by discriminate.
  split; [exact H|]. exact (max_remaining_bounds 2 _ _ H).
Defined.

(** X16: in sim.py, once the secret word has been drawn from the words of
    length [L], a won game has at most [MAX_TRIES] guesses, the last one the
    secret with an all-green feedback and none before it the secret; a lost
    game has exactly [MAX_TRIES] guesses, none the secret; a game cut short
    by the end of the input has fewer, none the secret. *)
Theorem play_wordle_outcome (L : nat) (all_words : list word) (secret_word : word)
    (inputs : list word) :
  secret_word ∈ valid_words L all_words ->
  match play_wordle L all_words secret_word inputs with
  | Won h => length h <= MAX_TRIES /\
      exists h0, h = h0 ++ [(secret_word, replicate L sq_green)] /\
                 Forall (fun gr => fst gr <> secret_word) h0
  | Lost h => length h = MAX_TRIES /\ Forall (fun gr => fst gr <> secret_word) h
  | NoInput h => length h < MAX_TRIES /\ Forall (fun gr => fst gr <> secret_word) h
  end.
Proof.
  intros Hs. unfold valid_words in Hs. apply list_elem_of_In, filter_In in Hs as [_ HL].
  apply Nat.eqb_eq in HL.
  pose proof (game_loop_outcome MAX_TRIES L (valid_words L all_words) secret_word inputs []
                (List.Forall_nil _)) as H.
  rewrite check_guess_self, HL in H. unfold play_wordle. exact H.
Qed.

Lemma play_wordle_outcome_witness :
  let all_words := [list_ascii_of_string "cat"; list_ascii_of_string "act";
                    list_ascii_of_string "tack"] in
  list_ascii_of_string "cat" ∈ valid_words 3 all_words /\
  match play_wordle 3 all_words (list_ascii_of_string "cat")
          [list_ascii_of_string "tack"; list_ascii_of_string "act";
           list_ascii_of_string "cat"] with
  | Won h => length h <= MAX_TRIES /\
      exists h0, h = h0 ++ [(list_ascii_of_string "cat", replicate 3 sq_green)] /\
                 Forall (fun gr => fst gr <> list_ascii_of_string "cat") h0
  | Lost h => length h = MAX_TRIES /\
      Forall (fun gr => fst gr <> list_ascii_of_string "cat") h
  | NoInput h => length h < MAX_TRIES /\
      Forall (fun gr => fst gr <> list_ascii_of_string "cat") h
  end.
Proof.
  intros all_words.
  assert (H : list_ascii_of_string "cat" ∈ valid_words 3 all_words)
    by (apply (bool_decide_unpack _); vm_compute; exact I).
  split; [exact H|]. exact (play_wordle_outcome 3 all_words _
                                          [list_ascii_of_string "tack"; list_ascii_of_string "act";
                                          list_ascii_of_string "cat"] H).
Defined.

(** X17: in sim.py, every entry of [guess_history] pairs a word of length
    [L] from the dictionary with its [check_guess] feedback, which has one
    square per letter and is all green exactly when the word is the
    secret. *)
Theorem play_wordle_history (L : nat) (all_words : list word) (secret_word : word)
    (inputs : list word) :
  secret_word ∈ valid_words L all_words ->
  Forall (fun gr => fst gr ∈ all_words /\ length (fst gr) = L /\
                    snd gr = check_guess (fst gr) secret_word /\
                    length (snd gr) = L /\
                    (snd gr = replicate L sq_green <-> fst gr = secret_word))
         (game_history (play_wordle L all_words secret_word inputs)).
Proof.
  intros Hs. unfold valid_words in Hs. apply list_elem_of_In, filter_In in Hs as [_ HL].
  apply Nat.eqb_eq in HL.
  pose proof (game_loop_history MAX_TRIES L (valid_words L all_words) secret_word inputs []
                (List.Forall_nil _)) as H.
  unfold play_wordle. rewrite Forall_forall in H |- *. intros [g r] Hgr.
  destruct (H _ Hgr) as [Hg Hr]. simpl in Hg, Hr |- *.
  unfold valid_words in Hg. apply list_elem_of_In, filter_In in Hg as [Hg Hl].
  apply Nat.eqb_eq in Hl. subst r.
  destruct (check_guess_green_iff g secret_word ltac:(congruence)) as [H1 H2].
  rewrite HL in H1, H2.
  split; [by apply list_elem_of_In|]. done.
Qed.

Lemma play_wordle_history_witness :
  let all_words := [list_ascii_of_string "cat"; list_ascii_of_string "act";
                    list_ascii_of_string "tack"] in
  list_ascii_of_string "cat" ∈ valid_words 3 all_words /\
  Forall (fun gr => fst gr ∈ all_words /\ length (fst gr) = 3 /\
                    snd gr = check_guess (fst gr) (list_ascii_of_string "cat") /\
                    length (snd gr) = 3 /\
                    (snd gr = replicate 3 sq_green <-> fst gr = list_ascii_of_string "cat"))
    (game_history (play_wordle 3 all_words (list_ascii_of_string "cat")
                     [list_ascii_of_string "tack"; list_ascii_of_string "act";
                      list_ascii_of_string "cat"])).
Proof.
  intros all_words.
  assert (H : list_ascii_of_string "cat" ∈ valid_words 3 all_words)
    by (apply (bool_decide_unpack _); vm_compute; exact I).
  split; [exact H|]. exact (play_wordle_history 3 all_words _
                                          [list_ascii_of_string "tack"; list_ascii_of_string "act";
                                          list_ascii_of_string "cat"] H).
Defined.
